(** * ota-imageserver: the content-addressed diff protocol

    A shallow embedding of [client.go] and [server.go]: the bitmap
    writer of the client's scan loop, the bit test of the diff handler,
    the three archive walks (index, local scan, diff) and the two HTTP
    handlers, followed by the properties of the protocol.

    Conventions.  A Go [byte], [uint32] or [int64] is a [Z]; every
    operation whose Go result is truncated to the type's width has the
    truncation written out ([wrap8], [wrap32]).  A Go string is a
    [string] (a sequence of bytes).  A [[]byte] is a [list Z].  A file
    system is a finite map from paths to nodes. *)

From Stdlib Require Import ZArith Lia Ascii String.
From stdpp Require Import base list gmap strings.

Local Open Scope Z_scope.

(** ** Machine integers *)

Definition wrap32 (z : Z) : Z := z mod 2 ^ 32.
Definition wrap8 (z : Z) : Z := z mod 2 ^ 8.

(** ** How a Go computation ends

    [Done]: the statement sequence ran to its end.  [Fatal]: a call of
    [log.Fatal]/[log.Fatalln] (the process exits).  [Panic]: an explicit
    [panic(..)] or a run-time panic (index out of range, nil
    dereference). *)

Inductive Outcome (A : Type) : Type :=
  | Done (a : A)
  | Fatal (msg : string)
  | Panic (msg : string).
Arguments Done {A} a.
Arguments Fatal {A} msg.
Arguments Panic {A} msg.

(** A loop over the entries of a tar stream: the body is run on each
    entry in turn until the stream ends ([io.EOF], [break]) or the body
    does not return.  The state reached is returned in both cases. *)

Fixpoint run {E S : Type} (body : E → S → S * Outcome unit)
    (entries : list E) (s : S) : S * Outcome unit :=
  match entries with
  | [] => (s, Done tt)
  | e :: rest =>
      match body e s with
      | (s', Done _) => run body rest s'
      | stopped => stopped
      end
  end.

(** ** The presence bitmap *)

Module Bitmap.

(** The three variables of [main] (client.go) that build the bitmap:
    [regularfileindex], [bitmapbyte] and the buffer
    [requestefilesbitmap]. *)

Record Writer : Type := {
  regularfileindex : Z;          (* uint32 *)
  bitmapbyte : Z;                (* byte *)
  requestefilesbitmap : list Z   (* bytes.Buffer *)
}.

Definition start : Writer :=
  {| regularfileindex := 0; bitmapbyte := 0; requestefilesbitmap := [] |}.

(** client.go 206: [var bitindex = 7 - (regularfileindex % 8)]. *)
Definition bitindex_of (regularfileindex : Z) : Z :=
  wrap32 (7 - wrap32 (regularfileindex mod 8)).

(** client.go 206-208: the bit index of the entry, and
    [regularfileindex++]. *)
Definition take_index (w : Writer) : Z * Writer :=
  (bitindex_of (regularfileindex w),
   {| regularfileindex := wrap32 (regularfileindex w + 1);
      bitmapbyte := bitmapbyte w;
      requestefilesbitmap := requestefilesbitmap w |}).

(** client.go 262-269; [missing] is [uselocalfile == false]. *)
Definition record_bit (missing : bool) (bitindex : Z) (w : Writer) : Writer :=
  let bitmapbyte' :=
    if missing
    then Z.lor (bitmapbyte w) (wrap8 (Z.shiftl 1 bitindex))
    else bitmapbyte w in
  if bitindex =? 0
  then {| regularfileindex := regularfileindex w;
          bitmapbyte := 0;
          requestefilesbitmap := requestefilesbitmap w ++ [bitmapbyte'] |}
  else {| regularfileindex := regularfileindex w;
          bitmapbyte := bitmapbyte';
          requestefilesbitmap := requestefilesbitmap w |}.

(** Both, for one counted entry. *)
Definition push_bit (missing : bool) (w : Writer) : Writer :=
  let '(bitindex, w') := take_index w in
  record_bit missing bitindex w'.

(** client.go 313: [requestefilesbitmap.WriteByte(bitmapbyte)], after
    the loop. *)
Definition flush (w : Writer) : list Z :=
  requestefilesbitmap w ++ [bitmapbyte w].

Definition pack_state (flags : list bool) : Writer :=
  fold_left (λ w missing, push_bit missing w) flags start.

(** The client's packing of a sequence of booleans. *)
Definition pack (flags : list bool) : list Z := flush (pack_state flags).

(** server.go 95-106: the bit of the counter value [regularfileindex]
    in the bitmap received.  The guard compares with [>]; the
    indexing that follows panics in Go when the index is not below the
    length of the slice. *)
Definition unpack (requestedfilesbitmap : list Z) (regularfileindex : Z)
    : Outcome bool :=
  let byteindex := wrap32 (regularfileindex / 8) in
  let bitindex := bitindex_of regularfileindex in
  if byteindex >? wrap32 (Z.of_nat (length requestedfilesbitmap))
  then Fatal "requestedfilesbitmap: out of bounds!"
  else
    match requestedfilesbitmap !! Z.to_nat byteindex with
    | None => Panic "runtime error: index out of range"
    | Some b => Done (Z.land (wrap8 (Z.shiftr b bitindex)) 1 =? 1)
    end.

(** The layout in the words of the specification: bit [7 - i mod 8] of
    byte [i / 8], most significant bit first. *)
Definition spec_bit (bytes : list Z) (i : Z) : bool :=
  match bytes !! Z.to_nat (i / 8) with
  | Some b => Z.testbit b (7 - i mod 8)
  | None => false
  end.

(** The byte count in the words of the specification: [ceil(N/8)], and
    at least one byte. *)
Definition spec_byte_count (N : Z) : Z := Z.max 1 ((N + 7) / 8).

End Bitmap.

(** ** Archives

    What [tar.Reader] yields, entry by entry: the header returned by
    [Next] and the bytes that reading the entry gives.  What is written
    through a [tar.Writer] is kept in the same form. *)

Record Header : Type := {
  Name : string;
  Typeflag : ascii;      (* byte *)
  Size : Z;              (* int64 *)
  Linkname : string;
  Mode : Z;
  ModTime : Z
}.

Abbreviation Entry := (Header * list Z)%type.

(** [hdr.Size = size]. *)
Definition set_Size (hdr : Header) (size : Z) : Header :=
  {| Name := Name hdr; Typeflag := Typeflag hdr; Size := size;
     Linkname := Linkname hdr; Mode := Mode hdr; ModTime := ModTime hdr |}.

(** [tw.WriteHeader(hdr)] starts a new entry.  Errors of the underlying
    writer (the connection, the destination file) are outside the
    model. *)
Definition WriteHeader (hdr : Header) (tw : list Entry) : list Entry :=
  tw ++ [(hdr, [])].

(** [tw.Write(data)] or [io.Copy(tw, ..)]: the bytes go to the entry
    started last. *)
Fixpoint Write (data : list Z) (tw : list Entry) : list Entry :=
  match tw with
  | [] => []
  | [(hdr, written)] => [(hdr, written ++ data)]
  | e :: rest => e :: Write data rest
  end.

(** [sha1.Size]. *)
Definition sha1_Size : Z := 20.

(** [hex.EncodeToString]. *)
Definition hextable : string := "0123456789abcdef".

Definition hexdigit (v : Z) : ascii :=
  default "0"%char (String.get (Z.to_nat v) hextable).

Fixpoint EncodeToString (src : list Z) : string :=
  match src with
  | [] => ""
  | v :: rest =>
      String (hexdigit (Z.shiftr v 4))
        (String (hexdigit (Z.land v 15)) (EncodeToString rest))
  end.

(** ** Request paths (server.go 41 and 135) *)

Module Path.

(** [strings.LastIndex(s, sep)] for a separator of one byte: the index
    of its last occurrence, or -1. *)
Fixpoint LastIndex (s : string) (sep : ascii) : Z :=
  match s with
  | EmptyString => -1
  | String c rest =>
      let i := LastIndex rest sep in
      if i >=? 0 then i + 1
      else if Ascii.eqb c sep then 0 else -1
  end.

Fixpoint drop (n : nat) (s : string) : string :=
  match n, s with
  | S n', String _ rest => drop n' rest
  | _, _ => s
  end.

(** [s[lo:]]. *)
Definition slice_from (s : string) (lo : Z) : string := drop (Z.to_nat lo) s.

Definition tarfolder : string := "/tmp/".

(** [tarfolder + r.URL.Path[strings.LastIndex(r.URL.Path, "/")+1:]]. *)
Definition inputfname (URL_Path : string) : string :=
  tarfolder +:+ slice_from URL_Path (LastIndex URL_Path "/" + 1).

(** [c] occurs in [s]. *)
Fixpoint occurs (c : ascii) (s : string) : Prop :=
  match s with
  | EmptyString => False
  | String c' rest => c' = c ∨ occurs c rest
  end.

(** The substring after the last ['/'], in the words of the
    specification: [seg] is the final segment of [path]. *)
Definition final_segment (path seg : string) : Prop :=
  ¬ occurs "/" seg ∧
  (path = seg ∨ ∃ dirs, path = dirs +:+ "/" +:+ seg).

End Path.

(** ** The server (server.go) *)

Module Server.

Section Walks.

(** [sha1.New()], written to and summed. *)
Variable sha1 : list Z → list Z.

(** The body of the loop of [indextarhandler] (163-199); the state is
    what has gone through [tarout]. *)
Definition index_entry (e : Entry) (tarout : list Entry)
    : list Entry * Outcome unit :=
  let '(hdr, payload) := e in
  if Ascii.eqb (Typeflag hdr) "0" && (Size hdr >? 0) then
    let hash := sha1 payload in
    let hdr := set_Size hdr sha1_Size in
    let tarout := WriteHeader hdr tarout in
    (Write hash tarout, Done tt)
  else
    let tarout := WriteHeader hdr tarout in
    if Size hdr >? 0 then (Write payload tarout, Done tt)
    else (tarout, Done tt).

(** The index of an archive: the loop 162-201 from an empty writer. *)
Definition index_loop (archive : list Entry) : list Entry * Outcome unit :=
  run index_entry archive [].

(** The variables of the loop of [difftarhandler]. *)
Record Walk : Type := {
  regularfileindex : Z;     (* uint32 *)
  tarout : list Entry
}.

(** The body of the loop of [difftarhandler] (85-121).  Lines 95, 96
    and 100-106 are [Bitmap.unpack].  In the branch of the guard,
    [fmt.Fprintf(tarout, ..)] finds no entry with room left and writes
    nothing. *)
Definition diff_entry (requestedfilesbitmap : list Z) (e : Entry) (st : Walk)
    : Walk * Outcome unit :=
  let '(hdr, payload) := e in
  if Ascii.eqb (Typeflag hdr) "0" && (Size hdr >? 0) then
    let requested := Bitmap.unpack requestedfilesbitmap (regularfileindex st) in
    let st := {| regularfileindex := wrap32 (regularfileindex st + 1);
                 tarout := tarout st |} in
    match requested with
    | Fatal msg => (st, Fatal msg)
    | Panic msg => (st, Panic msg)
    | Done true =>
        ({| regularfileindex := regularfileindex st;
            tarout := Write payload (WriteHeader hdr (tarout st)) |}, Done tt)
    | Done false => (st, Done tt)
    end
  else (st, Done tt).

Definition diff_loop (requestedfilesbitmap : list Z) (archive : list Entry)
    : Walk * Outcome unit :=
  run (diff_entry requestedfilesbitmap) archive
    {| regularfileindex := 0; tarout := [] |}.

End Walks.

(** *** The handlers *)

(** What [gzip.NewReader] and the reads that follow make of a byte
    sequence: [BadHeader] when [NewReader] returns an error, [Corrupt]
    when a later read does, the decompressed bytes otherwise. *)
Inductive Gzip : Type :=
  | BadHeader
  | Corrupt
  | Stream (data : list Z).

Definition StatusOK : Z := 200.
Definition StatusNotFound : Z := 404.
Definition StatusMethodNotAllowed : Z := 405.
Definition StatusInternalServerError : Z := 500.

Inductive Content : Type :=
  | Text (message : string)
  | Tgz (entries : list Entry).

Record Response : Type := {
  StatusCode : Z;
  Body : Content
}.

Inductive Method : Type := MethodGet | MethodPost | MethodOther.

Record Request : Type := {
  Method_ : Method;
  URL_Path : string;
  Body_ : list Z
}.

Section Handlers.

Variable sha1 : list Z → list Z.
(** The gzip decoder. *)
Variable gunzip : list Z → Gzip.
(** The entries [tar.Reader] finds in a byte sequence up to [io.EOF];
    [None] when some [Next] returns another error. *)
Variable untar : list Z → option (list Entry).
(** The files under the archive root. *)
Variable disk : gmap string (list Z).

Definition respond {S : Type} (result : S * Outcome unit)
    (entries : S → list Entry) : Outcome Response :=
  match result with
  | (s, Done _) => Done {| StatusCode := StatusOK; Body := Tgz (entries s) |}
  | (_, Fatal msg) => Fatal msg
  | (_, Panic msg) => Panic msg
  end.

Definition indextarhandler (r : Request) : Outcome Response :=
  let inputfname := Path.inputfname (URL_Path r) in
  match disk !! inputfname with
  | None =>
      Done {| StatusCode := StatusNotFound;
              Body := Text "404 - File not found!" |}
  | Some filein =>
      match gunzip filein with
      | BadHeader =>
          Done {| StatusCode := StatusNotFound;
                  Body := Text "500 - cannot read tgz file!" |}
      | Corrupt => Fatal "unexpected EOF"
      | Stream tarbytes =>
          match untar tarbytes with
          | None => Fatal "archive/tar: invalid tar header"
          | Some archive => respond (index_loop sha1 archive) id
          end
      end
  end.

Definition difftarhandler (r : Request) : Outcome Response :=
  let inputfname := Path.inputfname (URL_Path r) in
  match gunzip (Body_ r) with
  | BadHeader => Panic "gzip: invalid header"
  | Corrupt =>
      Done {| StatusCode := StatusInternalServerError;
              Body := Text "500 - Cannot read request bitmap!" |}
  | Stream requestedfilesbitmap =>
      match disk !! inputfname with
      | None =>
          Done {| StatusCode := StatusNotFound;
                  Body := Text "404 - File not found!" |}
      | Some filein =>
          match gunzip filein with
          | BadHeader =>
              Done {| StatusCode := StatusNotFound;
                      Body := Text "500 - cannot read tgz file!" |}
          | Corrupt => Fatal "unexpected EOF"
          | Stream tarbytes =>
              match untar tarbytes with
              | None => Fatal "archive/tar: invalid tar header"
              | Some archive =>
                  respond (diff_loop requestedfilesbitmap archive) tarout
              end
          end
      end
  end.

Definition handler (r : Request) : Outcome Response :=
  match Method_ r with
  | MethodGet => indextarhandler r
  | MethodPost => difftarhandler r
  | MethodOther =>
      Done {| StatusCode := StatusMethodNotAllowed;
              Body := Text "405 - unsupported method" |}
  end.

End Handlers.

End Server.

(** ** The client (client.go) *)

Module Client.

(** A node of the local file system: a regular file with its content,
    or anything else (a directory, a device) with the size [Stat]
    reports for it. *)
Inductive Node : Type :=
  | RegularFile (content : list Z)
  | Other (size : Z).

(** I/O errors that the contents of the file system do not explain
    (permissions, a file changed by another process), per call and
    path.  [Stat_fails], [Open_fails] and [Create_fails] are the errors
    of [os.Stat], of [os.Open] with the read that follows it, and of
    [os.Create], in [copyfile], in [getfilehash] and at line 237.
    [Reopen_fails] is the error of the [os.Open] of line 282, which
    comes after [getfilehash] has opened the same file; [Copy_fails]
    that of the [io.Copy] of line 287; [Remove_fails] that of
    [os.Remove], which [main] does not look at. *)
Record Faults : Type := {
  Stat_fails : string → bool;
  Open_fails : string → bool;
  Create_fails : string → bool;
  Reopen_fails : string → bool;
  Copy_fails : string → bool;
  Remove_fails : string → bool
}.

(** The variables of the scan loop of [main] (184-191), the output
    archive [trout] and the file system. *)
Record Scan : Type := {
  bits : Bitmap.Writer;     (* regularfileindex, bitmapbyte, requestefilesbitmap *)
  missingfiles : Z;         (* uint32 *)
  trout : list Entry;
  fs : gmap string Node
}.

Definition start (fs0 : gmap string Node) : Scan :=
  {| bits := Bitmap.start; missingfiles := 0; trout := []; fs := fs0 |}.

Section Scanner.

Variable sha1 : list Z → list Z.
Variable faults : Faults.
(** [tgzref], with its ["/"] suffix. *)
Variable tgzref : string.

(** [os.Stat(name)]: the [FileInfo], or [None] for [nil, err]. *)
Definition os_Stat (fs : gmap string Node) (name : string) : option Node :=
  if Stat_fails faults name then None else fs !! name.

Definition IsRegular (fi : Node) : bool :=
  match fi with RegularFile _ => true | Other _ => false end.

(** [fi.Size()]. *)
Definition FileInfo_Size (fi : Node) : Z :=
  match fi with
  | RegularFile content => Z.of_nat (length content)
  | Other size => size
  end.

(** [os.Open(name)] and the read of the whole file that follows it. *)
Definition os_Open (fs : gmap string Node) (name : string) : option (list Z) :=
  if Open_fails faults name then None
  else match fs !! name with
       | Some (RegularFile content) => Some content
       | _ => None
       end.

(** [os.Create(name)]: [false] for an error. *)
Definition os_Create (fs : gmap string Node) (name : string) : bool :=
  if Create_fails faults name then false
  else match fs !! name with
       | Some (Other _) => false
       | _ => true
       end.

(** The [os.Open] of line 282. *)
Definition os_Reopen (fs : gmap string Node) (name : string)
    : option (list Z) :=
  if Reopen_fails faults name then None
  else match fs !! name with
       | Some (RegularFile content) => Some content
       | _ => None
       end.

(** [os.Remove(name)], its error dropped: the path stays when the
    call fails. *)
Definition os_Remove (fs : gmap string Node) (name : string) : gmap string Node :=
  if Remove_fails faults name then fs else delete name fs.

(** [copyfile] (43-71): the file system with [dst] written, or [None]
    for a returned error.  [os.Create] truncates [dst] before
    [io.Copy] reads from the source opened: a file copied onto itself
    ends empty. *)
Definition copyfile (fs : gmap string Node) (src dst : string)
    : option (gmap string Node) :=
  match os_Stat fs src with
  | None => None
  | Some sourceFileStat =>
      if negb (IsRegular sourceFileStat) then None
      else
        match os_Open fs src with
        | None => None
        | Some source =>
            if os_Create fs dst
            then Some (<[dst := RegularFile
                                  (if String.eqb src dst then [] else source)]> fs)
            else None
        end
  end.

(** [getfilehash] (73-88). *)
Definition getfilehash (fs : gmap string Node) (src : string) : option string :=
  match os_Open fs src with
  | None => None
  | Some filein => Some (EncodeToString (sha1 filein))
  end.

Definition set_bits (st : Scan) (w : Bitmap.Writer) : Scan :=
  {| bits := w; missingfiles := missingfiles st; trout := trout st; fs := fs st |}.

(** Lines 236-248.  [fi, err := os.Stat(..)] gives [fi == nil] with
    the error; the assignment [hdr.Size = fi.Size()] is outside the
    [if err != nil] block and is run in both cases: with [fi == nil]
    the method call panics. *)
Definition get_file_size (fs : gmap string Node) (tmpfilename : string)
    (uselocalfile : bool) (hdr : Header) : Outcome (bool * Header) :=
  if uselocalfile then
    match os_Stat fs tmpfilename with
    | None =>
        (* uselocalfile = false *)
        Panic "runtime error: invalid memory address or nil pointer dereference"
    | Some fi => Done (true, set_Size hdr (FileInfo_Size fi))
    end
  else Done (false, hdr).

(** The body of the scan loop (195-308). *)
Definition scan_entry (e : Entry) (st : Scan) : Scan * Outcome unit :=
  let '(hdr, payload) := e in
  if Ascii.eqb (Typeflag hdr) "0" && (Size hdr >? 0) then
    let '(bitindex, w) := Bitmap.take_index (bits st) in
    let st := set_bits st w in
    (* parse hash: tr.Read(hash) into a buffer of sha1.Size bytes *)
    let hash := take (Z.to_nat sha1_Size) payload in
    if negb (Z.of_nat (length hash) =? sha1_Size) then
      (st, Fatal "Server responded with an unknown file hash format!")
    else
      let hashstr := EncodeToString hash in
      let tmpfilename := "/tmp/" +:+ hashstr +:+ ".tmp" in
      (* copy file to tmp *)
      let '(fs1, uselocalfile) :=
        match copyfile (fs st) (tgzref +:+ Name hdr) tmpfilename with
        | None => (fs st, false)
        | Some fs' => (fs', true)
        end in
      (* get file size *)
      match get_file_size fs1 tmpfilename uselocalfile hdr with
      | Fatal msg => (st, Fatal msg)
      | Panic msg => (st, Panic msg)
      | Done (uselocalfile, hdr) =>
          (* compare file hashes *)
          let uselocalfile :=
            if uselocalfile then
              match getfilehash fs1 tmpfilename with
              | None => false
              | Some filehashstr => String.eqb filehashstr hashstr
              end
            else false in
          let w := Bitmap.record_bit (negb uselocalfile) bitindex w in
          if negb uselocalfile then
            ({| bits := w;
                missingfiles := wrap32 (missingfiles st + 1);
                trout := trout st;
                fs := os_Remove fs1 tmpfilename |}, Done tt)
          else
            (* write header of this file, then the tmp file *)
            let trout' := WriteHeader hdr (trout st) in
            match os_Reopen fs1 tmpfilename with
            | None =>
                ({| bits := w; missingfiles := missingfiles st;
                    trout := trout'; fs := fs1 |},
                 Panic "cannot read local file. should never happen, because getfilehash was successful before!")
            | Some fi =>
                if Copy_fails faults tmpfilename then
                  ({| bits := w; missingfiles := missingfiles st;
                      trout := trout'; fs := fs1 |},
                   Panic "read error")
                else
                  ({| bits := w;
                      missingfiles := missingfiles st;
                      trout := Write fi trout';
                      fs := os_Remove fs1 tmpfilename |}, Done tt)
            end
      end
  else
    (* include dirs, links .. without changes *)
    let trout' := WriteHeader hdr (trout st) in
    ({| bits := bits st;
        missingfiles := missingfiles st;
        trout := if Size hdr >? 0 then Write payload trout' else trout';
        fs := fs st |}, Done tt).

(** The scan loop over the index, from the given file system. *)
Definition scan_loop (index : list Entry) (fs0 : gmap string Node)
    : Scan * Outcome unit :=
  run scan_entry index (start fs0).

(** Line 313: the bitmap sent with the diff request. *)
Definition bitmap_of (st : Scan) : list Z := Bitmap.flush (bits st).

End Scanner.

(** *** Step 2 of [main]: the missing files (315-387) *)

(** The body of the loop over the diff response (360-380). *)
Definition merge_entry (e : Entry) (trout : list Entry)
    : list Entry * Outcome unit :=
  let '(hdr, payload) := e in
  let trout := WriteHeader hdr trout in
  if Size hdr >? 0 then (Write payload trout, Done tt)
  else (trout, Done tt).

(** Lines 319-387.  [post] is the exchange with the server: the
    entries read from the response to [http.Post] with the bitmap as
    body, or how the client ends when the request, the gzip reader or
    the tar reader fails.  The result is the output archive at
    [trout.Close()]. *)
Definition load_missing (post : list Z → Outcome (list Entry)) (st : Scan)
    : Outcome (list Entry) :=
  if missingfiles st >? 0 then
    match post (bitmap_of st) with
    | Done diff =>
        match run merge_entry diff (trout st) with
        | (out, Done _) => Done out
        | (_, Fatal msg) => Fatal msg
        | (_, Panic msg) => Panic msg
        end
    | Fatal msg => Fatal msg
    | Panic msg => Panic msg
    end
  else Done (trout st).

Section Sync.

Variable sha1 : list Z → list Z.
Variable faults : Faults.
Variable tgzref : string.

(** Steps 1 and 2 of [main] on the index received (193-387). *)
Definition sync (index : list Entry) (post : list Z → Outcome (list Entry))
    (fs0 : gmap string Node) : Outcome (list Entry) :=
  match scan_loop sha1 faults tgzref index fs0 with
  | (st, Done _) => load_missing post st
  | (_, Fatal msg) => Fatal msg
  | (_, Panic msg) => Panic msg
  end.

End Sync.

(** *** The arguments of [main] (92-133) *)

(** [strings.HasSuffix]:
    [len(s) >= len(suffix) && s[len(s)-len(suffix):] == suffix]. *)
Definition HasSuffix (s suffix : string) : bool :=
  (String.length suffix <=? String.length s)%nat
  && String.eqb (Path.drop (String.length s - String.length suffix) s) suffix.

(** The loop of [path.Base] that strips the trailing slashes. *)
Fixpoint strip_slashes (path : string) : string :=
  match path with
  | EmptyString => EmptyString
  | String c rest =>
      match strip_slashes rest with
      | EmptyString => if Ascii.eqb c "/" then EmptyString else String c EmptyString
      | rest' => String c rest'
      end
  end.

(** [path.Base]: the last element of the path; ["."] for the empty
    path, ["/"] for a path of slashes. *)
Definition Base (path : string) : string :=
  if String.eqb path "" then "."
  else
    let path := strip_slashes path in
    let i := Path.LastIndex path "/" in
    let path := if i >=? 0 then Path.slice_from path (i + 1) else path in
    if String.eqb path "" then "/" else path.

Definition defaulturl : string := "http://localhost:8090/image-1234.tgz".

(** Lines 101-133 on the values of the flags [-src], [-dst] and
    [-ref]: the source URL, the destination file and the reference
    directory that the rest of [main] uses.  [os.Exit(1)] after the
    usage text is a [Fatal] as well. *)
Definition arguments (ptgzsrc ptgzdst ptgzref : string)
    : Outcome (string * string * string) :=
  if String.eqb ptgzsrc defaulturl then Fatal "usage:"
  else
    let tgzsrc := ptgzsrc in
    let tgzdst := ptgzdst in
    let tgzref := ptgzref in
    if negb (HasSuffix tgzsrc ".tgz")
    then Fatal "<src> argument requires .tgz suffix"
    else
      let tgzref :=
        if negb (HasSuffix tgzref "/") then tgzref +:+ "/" else tgzref in
      let tgzdst :=
        if HasSuffix tgzdst "/" then tgzdst +:+ Base tgzsrc
        else if HasSuffix tgzdst ".tgz" then tgzdst
        else (tgzdst +:+ "/") +:+ Base tgzsrc in
      Done (tgzsrc, tgzdst, tgzref).

End Client.

(** ** The vocabulary of the specification *)

(** An entry that takes a RegularFileCounter value: kind regular-file
    and size > 0. *)
Definition counted (e : Entry) : bool :=
  Ascii.eqb (Typeflag e.1) "0" && (Size e.1 >? 0).



(** The number of counted entries of an archive. *)
Definition count (archive : list Entry) : Z :=
  Z.of_nat (length (filter (λ e, counted e = true) archive)).

(** The RegularFileCounter of the entry at position [k]: the number of
    counted entries before it. *)
Definition counter_at (archive : list Entry) (k : nat) : Z :=
  count (take k archive).

(** An entry as a tar reader yields it: the payload has the size of
    the header, or the entry has no payload. *)
Definition well_formed (e : Entry) : Prop :=
  Z.of_nat (length e.2) = Size e.1 ∨ e.2 = [].

(** IndexEntry: the payload of a counted entry replaced by its hash,
    the size by the hash length; any other entry unchanged. *)
Definition spec_index_entry (sha1 : list Z → list Z) (e : Entry) : Entry :=
  if counted e then (set_Size e.1 sha1_Size, sha1 e.2) else e.

(** What [Server.index_entry] writes for an entry, whatever the entry. *)
Definition emitted (sha1 : list Z → list Z) (e : Entry) : Entry :=
  if counted e then (set_Size e.1 sha1_Size, sha1 e.2)
  else (e.1, if Size e.1 >? 0 then e.2 else []).

(** The entries of the diff response: the counted entries whose bit at
    their counter value, starting from [c], is 1. *)
Fixpoint spec_diff (bitmap : list Z) (c : Z) (archive : list Entry)
    : list Entry :=
  match archive with
  | [] => []
  | e :: rest =>
      if counted e then
        (if Bitmap.spec_bit bitmap c then [e] else [])
        ++ spec_diff bitmap (c + 1) rest
      else spec_diff bitmap c rest
  end.

(** The counted entries of an archive whose flag is set, the flags
    being given in counter order (a missing flag is unset). *)
Fixpoint fetched (flags : list bool) (archive : list Entry) : list Entry :=
  match archive with
  | [] => []
  | e :: rest =>
      if counted e then
        (if default false (head flags) then [e] else [])
        ++ fetched (tail flags) rest
      else fetched flags rest
  end.

(** The other entries: those that are not counted and the counted ones
    whose flag is unset. *)
Fixpoint kept (flags : list bool) (archive : list Entry) : list Entry :=
  match archive with
  | [] => []
  | e :: rest =>
      if counted e then
        (if default false (head flags) then [] else [e])
        ++ kept (tail flags) rest
      else e :: kept flags rest
  end.

(** [out] stands for the entry [e] of an index in the output archive:
    an entry that is not counted as it was read; a counted entry with
    the header of [e], the size and the content of a local file whose
    hash in hexadecimal is that of the first 20 bytes of [e]. *)
Definition local_copy (sha1 : list Z → list Z) (e out : Entry) : Prop :=
  if counted e then
    ∃ content,
      out = (set_Size e.1 (Z.of_nat (length content)), content)
      ∧ EncodeToString (sha1 content)
        = EncodeToString (take (Z.to_nat sha1_Size) e.2)
  else out = (e.1, if Size e.1 >? 0 then e.2 else []).

(** [out] stands for the entry [e] of the source archive in the output
    archive: an entry that is not counted is [e] itself; a counted
    entry has the header of [e] with the size of a local file, and the
    content of that file, whose hash is the hash of the payload of
    [e]. *)
Definition restored (sha1 : list Z → list Z) (e out : Entry) : Prop :=
  if counted e then
    ∃ content,
      out = (set_Size e.1 (Z.of_nat (length content)), content)
      ∧ sha1 content = sha1 e.2
  else out = e.

(** The server's answer to a diff request for [archive], as the client
    reads it: the entries written by the diff loop when it runs to the
    end; the client does not get a response it can read otherwise. *)
Definition serve_diff (archive : list Entry) (bitmap : list Z)
    : Outcome (list Entry) :=
  match Server.diff_loop bitmap archive with
  | (walk, Done _) => Done (Server.tarout walk)
  | (_, Fatal msg) => Fatal msg
  | (_, Panic msg) => Panic msg
  end.

(** ** Stand-ins used to run the definitions on concrete inputs *)

Module Sample.

(** A 20-byte digest that depends on the content. *)
Definition digest (content : list Z) : list Z :=
  replicate 20 (Z.of_nat (length content) mod 256).

(** A decoder that accepts the streams starting with the gzip magic
    bytes and takes what follows them for the data. *)
Definition gunzip (bytes : list Z) : Server.Gzip :=
  match bytes with
  | 31 :: 139 :: data => Server.Stream data
  | _ => Server.BadHeader
  end.

(** A tar reader for streams of bytes that are all entries of size 1:
    each byte is the payload of a regular file named ["f"]. *)
Definition untar (bytes : list Z) : option (list Entry) :=
  Some (map (λ b, ({| Name := "f"; Typeflag := "0"; Size := 1;
                      Linkname := ""; Mode := 420; ModTime := 0 |}, [b]))
            bytes).

Definition no_faults : Client.Faults :=
  {| Client.Stat_fails := λ _, false;
     Client.Open_fails := λ _, false;
     Client.Create_fails := λ _, false;
     Client.Reopen_fails := λ _, false;
     Client.Copy_fails := λ _, false;
     Client.Remove_fails := λ _, false |}.

Definition dir (name : string) : Entry :=
  ({| Name := name; Typeflag := "5"; Size := 0;
      Linkname := ""; Mode := 493; ModTime := 0 |}, []).

Definition file (name : string) (content : list Z) : Entry :=
  ({| Name := name; Typeflag := "0"; Size := Z.of_nat (length content);
      Linkname := ""; Mode := 420; ModTime := 0 |}, content).

(** The archive of the specification's scenario: a directory and two
    files with contents "AAAA" and "BBBB". *)
Definition archive : list Entry :=
  [dir "a/"; file "a/x" [65; 65; 65; 65]; file "a/y" [66; 66; 66; 66]].

(** A reference directory ["/ref/"] that has [a/x] and lacks [a/y]. *)
Definition reference : gmap string Client.Node :=
  {[ "/ref/a/x" := Client.RegularFile [65; 65; 65; 65] ]}.

(** A file system in which [os.Stat] fails on the scratch files. *)
Definition stat_tmp_fails : Client.Faults :=
  {| Client.Stat_fails := String.prefix "/tmp/";
     Client.Open_fails := λ _, false;
     Client.Create_fails := λ _, false;
     Client.Reopen_fails := λ _, false;
     Client.Copy_fails := λ _, false;
     Client.Remove_fails := λ _, false |}.


End Sample.

(** * Properties *)

(** ** Arithmetic of the bit layout *)

Section BitFacts.

Lemma wrap32_small z : 0 ≤ z < 2 ^ 32 → wrap32 z = z.
Proof. intros H. unfold wrap32. by apply Z.mod_small. Qed.

Lemma wrap32_mod8 z : wrap32 z mod 8 = z mod 8.
Proof.
  unfold wrap32. change (2 ^ 32) with 4294967296.
  Z.div_mod_to_equations. lia.
Qed.

Lemma bitindex_of_eq r : Bitmap.bitindex_of r = 7 - r mod 8.
Proof.
  unfold Bitmap.bitindex_of.
  assert (0 ≤ r mod 8 < 8) by (apply Z.mod_pos_bound; lia).
  rewrite (wrap32_small (r mod 8)) by lia.
  apply wrap32_small. lia.
Qed.

Lemma bitindex_of_wrap32 r : Bitmap.bitindex_of (wrap32 r) = 7 - r mod 8.
Proof. by rewrite bitindex_of_eq, wrap32_mod8. Qed.

Lemma shiftl_1_byte k : 0 ≤ k ≤ 7 → wrap8 (Z.shiftl 1 k) = 2 ^ k.
Proof.
  intros H. unfold wrap8. rewrite Z.shiftl_1_l.
  apply Z.mod_small. split; [apply Z.pow_nonneg; lia|].
  apply Z.pow_lt_mono_r; lia.
Qed.

Lemma testbit_set b k j :
  0 ≤ k → 0 ≤ j →
  Z.testbit (Z.lor b (2 ^ k)) j = Z.testbit b j || (j =? k).
Proof.
  intros Hk Hj. rewrite Z.lor_spec, Z.pow2_bits_eqb by done.
  by rewrite (Z.eqb_sym k j).
Qed.

Lemma byte_set_range b k : 0 ≤ b < 256 → 0 ≤ k ≤ 7 → 0 ≤ Z.lor b (2 ^ k) < 256.
Proof.
  intros Hb Hk. split.
  - apply Z.lor_nonneg. split; [lia | apply Z.pow_nonneg; lia].
  - assert (Hlt : Z.lor b (2 ^ k) < 2 ^ 8); [|done].
    destruct (Z.eq_dec (Z.lor b (2 ^ k)) 0) as [->|Hne]; [done|].
    apply Z.log2_lt_pow2.
    + assert (0 ≤ Z.lor b (2 ^ k)); [|lia].
      apply Z.lor_nonneg. split; [lia | apply Z.pow_nonneg; lia].
    + rewrite Z.log2_lor by (try lia; apply Z.pow_nonneg; lia).
      rewrite Z.log2_pow2 by lia.
      assert (Z.log2 b < 8); [|lia].
      destruct (Z.eq_dec b 0) as [->|]; [done|].
      apply Z.log2_lt_pow2; lia.
Qed.

Lemma land_1_testbit b k :
  0 ≤ k → (Z.land (Z.shiftr b k) 1 =? 1) = Z.testbit b k.
Proof.
  intros Hk. change 1 with (Z.ones 1) at 1.
  rewrite Z.land_ones by lia. change (2 ^ 1) with 2.
  rewrite Z.testbit_odd, Zmod_odd.
  by destruct (Z.odd (Z.shiftr b k)).
Qed.

Lemma shiftr_byte b k : 0 ≤ b < 256 → 0 ≤ k → wrap8 (Z.shiftr b k) = Z.shiftr b k.
Proof.
  intros Hb Hk. unfold wrap8. apply Z.mod_small.
  rewrite Z.shiftr_div_pow2 by done.
  assert (0 < 2 ^ k) by (apply Z.pow_pos_nonneg; lia).
  split; [apply Z.div_pos; lia|].
  apply Z.div_lt_upper_bound; [lia|]. change (2 ^ 8) with 256. nia.
Qed.

End BitFacts.

(** ** The bitmap writer *)

Section PackFacts.
Import Bitmap.

Lemma pack_state_snoc flags b :
  pack_state (flags ++ [b]) = push_bit b (pack_state flags).
Proof. unfold pack_state. by rewrite fold_left_app. Qed.

Lemma spec_bit_app_zero l i : 0 ≤ i → spec_bit (l ++ [0]) i = spec_bit l i.
Proof.
  intros Hi. unfold spec_bit.
  destruct (lt_eq_lt_dec (Z.to_nat (i / 8)) (length l)) as [[Hlt|Heq]|Hgt].
  - by rewrite lookup_app_l.
  - rewrite Heq, list_lookup_middle by done.
    rewrite (lookup_ge_None_2 l) by lia. apply Z.bits_0.
  - rewrite !lookup_ge_None_2; [done | lia | rewrite length_app; simpl; lia].
Qed.

Lemma spec_bit_last_set buf byte (b : bool) n i :
  0 ≤ n → 0 ≤ i →
  Z.of_nat (length buf) = n / 8 →
  spec_bit (buf ++ [if b then Z.lor byte (2 ^ (7 - n mod 8)) else byte]) i
  = spec_bit (buf ++ [byte]) i || (b && (i =? n)).
Proof.
  intros Hn Hi Hlen. unfold spec_bit.
  assert (0 ≤ i / 8) by (apply Z.div_pos; lia).
  assert (0 ≤ n mod 8 < 8) by (apply Z.mod_pos_bound; lia).
  assert (0 ≤ i mod 8 < 8) by (apply Z.mod_pos_bound; lia).
  destruct (lt_eq_lt_dec (Z.to_nat (i / 8)) (length buf)) as [[Hlt|Heq]|Hgt].
  - rewrite !lookup_app_l by done.
    replace (i =? n) with false; [by rewrite andb_false_r, orb_false_r|].
    symmetry. apply Z.eqb_neq. intros ->. lia.
  - rewrite Heq, !list_lookup_middle by done.
    destruct b; simpl; [|by rewrite orb_false_r].
    rewrite testbit_set by lia. f_equal.
    apply eq_true_iff_eq. rewrite !Z.eqb_eq.
    assert (i / 8 = n / 8) by lia.
    split; [intros ?|by intros ->].
    rewrite (Z.div_mod i 8), (Z.div_mod n 8) by lia. lia.
  - rewrite !lookup_ge_None_2 by (rewrite length_app; simpl; lia).
    replace (i =? n) with false; [by rewrite andb_false_r|].
    symmetry. apply Z.eqb_neq. intros ->. lia.
Qed.

Lemma lookup_snoc_flag (flags : list bool) (b : bool) i :
  0 ≤ i →
  default false ((flags ++ [b]) !! Z.to_nat i)
  = default false (flags !! Z.to_nat i) || (b && (i =? Z.of_nat (length flags))).
Proof.
  intros Hi.
  destruct (lt_eq_lt_dec (Z.to_nat i) (length flags)) as [[Hlt|Heq]|Hgt].
  - rewrite lookup_app_l by done.
    replace (i =? _) with false; [by rewrite andb_false_r, orb_false_r|].
    symmetry. apply Z.eqb_neq. lia.
  - rewrite Heq, list_lookup_middle by done.
    rewrite (lookup_ge_None_2 flags) by lia. simpl.
    replace (i =? _) with true; [by rewrite andb_true_r|].
    symmetry. apply Z.eqb_eq. lia.
  - rewrite !lookup_ge_None_2 by (rewrite ?length_app; simpl; lia). simpl.
    replace (i =? _) with false; [by rewrite andb_false_r|].
    symmetry. apply Z.eqb_neq. lia.
Qed.

(** What the writer holds after any sequence of flags. *)
Lemma pack_state_inv flags :
  let n := Z.of_nat (length flags) in
  let w := pack_state flags in
  regularfileindex w = wrap32 n
  ∧ Z.of_nat (length (requestefilesbitmap w)) = n / 8
  ∧ 0 ≤ bitmapbyte w < 256
  ∧ Forall (λ b, 0 ≤ b < 256) (requestefilesbitmap w)
  ∧ ∀ i, 0 ≤ i → spec_bit (flush w) i = default false (flags !! Z.to_nat i).
Proof.
  induction flags as [|b flags IH] using rev_ind.
  - simpl. repeat split; try done.
    intros i Hi. unfold spec_bit, flush. simpl.
    destruct (Z.to_nat i); destruct (Z.to_nat (i / 8)) as [|k]; simpl;
      try done; apply Z.bits_0.
  - simpl in IH. destruct IH as (Hidx & Hlen & Hbyte & Hall & Hbits).
    rewrite pack_state_snoc, length_app. simpl length.
    set (w := pack_state flags) in *.
    set (n := Z.of_nat (length flags)) in *.
    replace (Z.of_nat (length flags + 1)) with (n + 1) by lia.
    assert (Hn : 0 ≤ n) by lia.
    assert (Hm : 0 ≤ n mod 8 < 8) by (apply Z.mod_pos_bound; lia).
    unfold push_bit, take_index, record_bit. simpl.
    rewrite Hidx, bitindex_of_wrap32.
    rewrite shiftl_1_byte by lia.
    set (byte' := if b then _ else _).
    assert (Hbyte' : 0 ≤ byte' < 256).
    { subst byte'. destruct b; [apply byte_set_range; lia|done]. }
    assert (Hnext : wrap32 (wrap32 n + 1) = wrap32 (n + 1)).
    { unfold wrap32. by rewrite Zplus_mod_idemp_l. }
    assert (Hbits' : ∀ i, 0 ≤ i →
      spec_bit (requestefilesbitmap w ++ [byte']) i
      = default false ((flags ++ [b]) !! Z.to_nat i)).
    { intros i Hi. subst byte'.
      rewrite spec_bit_last_set, lookup_snoc_flag by done.
      f_equal. by apply Hbits. }
    destruct (7 - n mod 8 =? 0) eqn:Hflush; simpl.
    + apply Z.eqb_eq in Hflush.
      repeat split; try done.
      * rewrite length_app. simpl. Z.div_mod_to_equations. lia.
      * apply Forall_app. split; [done|]. by apply Forall_singleton.
      * intros i Hi. unfold flush. simpl.
        rewrite spec_bit_app_zero by done. by apply Hbits'.
    + apply Z.eqb_neq in Hflush.
      repeat split; try done; try lia.
      Z.div_mod_to_equations. lia.
Qed.

Lemma pack_length flags :
  Z.of_nat (length (pack flags)) = Z.of_nat (length flags) / 8 + 1.
Proof.
  destruct (pack_state_inv flags) as (_ & Hlen & _).
  unfold pack, flush. rewrite length_app. simpl. lia.
Qed.

Lemma pack_bytes flags : Forall (λ b, 0 ≤ b < 256) (pack flags).
Proof.
  destruct (pack_state_inv flags) as (_ & _ & Hbyte & Hall & _).
  unfold pack, flush. apply Forall_app. split; [done|].
  by apply Forall_singleton.
Qed.

Lemma pack_spec_bit flags i :
  0 ≤ i → spec_bit (pack flags) i = default false (flags !! Z.to_nat i).
Proof. intros Hi. by apply (pack_state_inv flags). Qed.

(** The server's bit test on a bitmap that is long enough is the
    specification's bit. *)
Lemma unpack_in_range bm c :
  0 ≤ c < 2 ^ 32 →
  c / 8 < Z.of_nat (length bm) →
  Z.of_nat (length bm) < 2 ^ 32 →
  Forall (λ b, 0 ≤ b < 256) bm →
  unpack bm c = Done (spec_bit bm c).
Proof.
  intros Hc Hlt Hlen Hall. unfold unpack, spec_bit.
  assert (0 ≤ c / 8 < 2 ^ 32).
  { split; [apply Z.div_pos; lia|]. apply Z.div_lt_upper_bound; lia. }
  rewrite !wrap32_small by lia.
  destruct (Z.gtb_spec (c / 8) (Z.of_nat (length bm))) as [?|_]; [lia|].
  destruct (lookup_lt_is_Some_2 bm (Z.to_nat (c / 8))) as [b Hb]; [lia|].
  rewrite Hb. f_equal.
  assert (0 ≤ c mod 8 < 8) by (apply Z.mod_pos_bound; lia).
  rewrite bitindex_of_eq.
  rewrite shiftr_byte; [apply land_1_testbit; lia| |lia].
  rewrite Forall_lookup in Hall. by apply (Hall _ _ Hb).
Qed.

(** Round trip, for sequences that the 32-bit counter can address. *)
Lemma unpack_pack flags (i : nat) (b : bool) :
  Z.of_nat (length flags) ≤ 2 ^ 32 →
  flags !! i = Some b →
  unpack (pack flags) (Z.of_nat i) = Done b.
Proof.
  intros Hn Hi.
  assert (Hlt : (i < length flags)%nat) by (by eapply lookup_lt_Some).
  assert (Hdiv : Z.of_nat i / 8 ≤ Z.of_nat (length flags) / 8).
  { apply Z.div_le_mono; lia. }
  assert (Z.of_nat (length flags) / 8 ≤ 2 ^ 32 / 8).
  { apply Z.div_le_mono; lia. }
  change (2 ^ 32 / 8) with 536870912 in *.
  rewrite unpack_in_range.
  - rewrite pack_spec_bit, Nat2Z.id, Hi by lia. done.
  - lia.
  - rewrite pack_length. lia.
  - rewrite pack_length. lia.
  - apply pack_bytes.
Qed.

End PackFacts.

(** ** The bitmap codec *)

(** C2.  Round trip of the bitmap: for a sequence of N booleans (N
    within the range of the 32-bit counter) and every position i below
    N, the server's bit test on the client's packed bitmap returns the
    i-th boolean, and that bit is bit 7 - i mod 8 of byte i / 8. *)
Theorem bitmap_round_trip (flags : list bool) (i : nat) (b : bool) :
  Z.of_nat (length flags) ≤ 2 ^ 32 →
  flags !! i = Some b →
  Bitmap.unpack (Bitmap.pack flags) (Z.of_nat i) = Done b
  ∧ Bitmap.spec_bit (Bitmap.pack flags) (Z.of_nat i) = b.
Proof.
  intros Hn Hi. split.
  - by apply unpack_pack.
  - rewrite pack_spec_bit, Nat2Z.id, Hi by lia. done.
Qed.

Lemma bitmap_round_trip_witness :
  Bitmap.unpack (Bitmap.pack [false; true; false; true; true; false; false; false; true; true]) 9
    = Done true
  ∧ Bitmap.spec_bit (Bitmap.pack [false; true; false; true; true; false; false; false; true; true]) 9
    = true.
Proof.
  apply (bitmap_round_trip
           [false; true; false; true; true; false; false; false; true; true]
           9 true); [simpl; lia | reflexivity].
Defined.

(** C8, the claim as stated fails: eight booleans are packed into two
    bytes, not into ceil(8/8) = 1. *)
Lemma pack_byte_count_counterexample :
  Z.of_nat (length (Bitmap.pack (replicate 8 true))) ≠ Bitmap.spec_byte_count 8.
Proof. vm_compute. discriminate. Qed.

(** C8, amended.  The packed bitmap of N booleans has N / 8 + 1 bytes
    (rounded down): the bytes completed in the loop and the byte in
    progress, which is always appended.  That is ceil(N/8) unless N is
    a multiple of 8; for N = 0 it is one zero byte.  The last byte
    holds the N mod 8 bits of the incomplete group in its high-order
    bits, the bits below them are zero. *)
Theorem pack_byte_count (flags : list bool) :
  let N := Z.of_nat (length flags) in
  Z.of_nat (length (Bitmap.pack flags)) = N / 8 + 1
  ∧ (N mod 8 ≠ 0 → N / 8 + 1 = Bitmap.spec_byte_count N)
  ∧ (N = 0 → Bitmap.pack flags = [0])
  ∧ ∃ bytes last,
      Bitmap.pack flags = bytes ++ [last]
      ∧ 0 ≤ last < 256
      ∧ ∀ k, N mod 8 ≤ k < 8 → Z.testbit last (7 - k) = false.
Proof.
  intros N. split; [apply pack_length|].
  split.
  { intros Hm. unfold Bitmap.spec_byte_count. subst N.
    Z.div_mod_to_equations. lia. }
  split.
  { intros HN. destruct flags; [done|]. subst N. simpl in HN. lia. }
  destruct (pack_state_inv flags) as (_ & Hlen & Hbyte & _ & Hbits).
  simpl in *.
  exists (Bitmap.requestefilesbitmap (Bitmap.pack_state flags)),
         (Bitmap.bitmapbyte (Bitmap.pack_state flags)).
  split; [done|]. split; [done|].
  intros k Hk.
  assert (0 ≤ N / 8) by (apply Z.div_pos; lia).
  assert (0 ≤ N mod 8 < 8) by (apply Z.mod_pos_bound; lia).
  specialize (Hbits (8 * (N / 8) + k) ltac:(lia)).
  unfold Bitmap.spec_bit, Bitmap.flush in Hbits.
  replace ((8 * (N / 8) + k) / 8) with (N / 8) in Hbits
    by (Z.div_mod_to_equations; lia).
  replace ((8 * (N / 8) + k) mod 8) with k in Hbits
    by (Z.div_mod_to_equations; lia).
  replace (Z.to_nat (N / 8))
    with (length (Bitmap.requestefilesbitmap (Bitmap.pack_state flags))) in Hbits
    by (subst N; lia).
  rewrite list_lookup_middle in Hbits by done.
  rewrite Hbits, lookup_ge_None_2; [done|].
  subst N. Z.div_mod_to_equations. lia.
Qed.

(** ** Request paths *)

Section PathFacts.
Import Path.

Lemma LastIndex_absent s sep : ¬ occurs sep s → LastIndex s sep = -1.
Proof.
  induction s as [|c s IH]; simpl; [done|].
  intros Hno. rewrite IH by tauto. simpl.
  destruct (Ascii.eqb_spec c sep) as [->|]; [|done].
  exfalso. apply Hno. by left.
Qed.

Lemma LastIndex_after dirs seg sep :
  ¬ occurs sep seg →
  LastIndex (dirs +:+ String sep seg) sep = Z.of_nat (String.length dirs).
Proof.
  intros Hno. induction dirs as [|c dirs IH].
  - simpl. rewrite LastIndex_absent by done. simpl.
    by rewrite Ascii.eqb_refl.
  - simpl String.length. rewrite Nat2Z.inj_succ. simpl. rewrite IH.
    destruct (Z.geb_spec (Z.of_nat (String.length dirs)) 0); lia.
Qed.

Lemma drop_after dirs seg sep :
  drop (S (String.length dirs)) (dirs +:+ String sep seg) = seg.
Proof. induction dirs as [|c dirs IH]; simpl; [by destruct seg|done]. Qed.

Lemma final_segment_exists path : ∃ seg, final_segment path seg.
Proof.
  induction path as [|c path [seg [Hno [->|[dirs ->]]]]].
  - exists "". split; [by intros []|by left].
  - destruct (Ascii.eqb_spec c "/") as [->|Hc].
    + exists seg. split; [done|]. right. by exists "".
    + exists (String c seg). split; [|by left].
      simpl. intros [?|?]; [done|tauto].
  - exists seg. split; [done|]. right. by exists (String c dirs).
Qed.

Lemma inputfname_of_final_segment path seg :
  final_segment path seg → inputfname path = tarfolder +:+ seg.
Proof.
  intros [Hno [->|[dirs ->]]]; unfold inputfname, slice_from; f_equal.
  - by rewrite LastIndex_absent.
  - change ("/" +:+ seg) with (String "/" seg).
    rewrite LastIndex_after by done.
    replace (Z.to_nat (Z.of_nat (String.length dirs) + 1))
      with (S (String.length dirs)) by lia.
    apply drop_after.
Qed.

End PathFacts.


(** ** The tar writer and the loops *)

Section WriterFacts.

Lemma Write_last data tw hdr written :
  Write data (tw ++ [(hdr, written)]) = tw ++ [(hdr, written ++ data)].
Proof.
  induction tw as [|e tw IH]; [done|].
  change ((e :: tw) ++ [(hdr, written)]) with (e :: (tw ++ [(hdr, written)])).
  destruct e as [h w]. simpl. rewrite IH.
  by destruct tw.
Qed.

Lemma Write_WriteHeader data hdr tw :
  Write data (WriteHeader hdr tw) = tw ++ [(hdr, data)].
Proof. unfold WriteHeader. by rewrite Write_last. Qed.

Lemma count_nil : count [] = 0.
Proof. done. Qed.

Lemma count_cons e archive :
  count (e :: archive) = (if counted e then 1 else 0) + count archive.
Proof.
  unfold count. rewrite filter_cons.
  destruct (decide (counted e = true)) as [->|Hne].
  - rewrite length_cons. lia.
  - apply not_true_is_false in Hne. rewrite Hne. lia.
Qed.

Lemma count_app a1 a2 : count (a1 ++ a2) = count a1 + count a2.
Proof.
  unfold count. rewrite filter_app, length_app. lia.
Qed.

Lemma count_nonneg archive : 0 ≤ count archive.
Proof. unfold count. lia. Qed.

Lemma wrap32_succ c : wrap32 (wrap32 c + 1) = wrap32 (c + 1).
Proof. unfold wrap32. by rewrite Zplus_mod_idemp_l. Qed.

End WriterFacts.

(** ** The index handler *)

Section IndexFacts.

Variable sha1 : list Z → list Z.

Lemma counted_emitted e : counted (emitted sha1 e) = counted e.
Proof.
  unfold emitted. destruct (counted e) eqn:He; [|by rewrite <- He].
  unfold counted in *. simpl.
  apply andb_true_iff in He as [-> _]. done.
Qed.

Lemma emitted_well_formed e : well_formed e → emitted sha1 e = spec_index_entry sha1 e.
Proof.
  intros Hwf. unfold emitted, spec_index_entry.
  destruct (counted e); [done|]. destruct e as [hdr payload].
  unfold well_formed in Hwf. simpl in *.
  destruct (Z.gtb_spec (Size hdr) 0); [done|].
  f_equal. destruct Hwf as [Hlen| ->]; [|done]. simpl in Hlen.
  destruct payload; [done|]. simpl in Hlen. lia.
Qed.

Lemma index_entry_emitted e tarout :
  Server.index_entry sha1 e tarout = (tarout ++ [emitted sha1 e], Done tt).
Proof.
  destruct e as [hdr payload]. unfold Server.index_entry, emitted, counted.
  simpl. destruct (Ascii.eqb (Typeflag hdr) "0" && (Size hdr >? 0)).
  - by rewrite Write_WriteHeader.
  - destruct (Size hdr >? 0); [by rewrite Write_WriteHeader|done].
Qed.

Lemma index_run archive tarout :
  run (Server.index_entry sha1) archive tarout
  = (tarout ++ map (emitted sha1) archive, Done tt).
Proof.
  revert tarout. induction archive as [|e archive IH]; intros tarout; simpl.
  - by rewrite app_nil_r.
  - rewrite index_entry_emitted, IH, <- app_assoc. done.
Qed.

Lemma index_loop_emitted archive :
  Server.index_loop sha1 archive = (map (emitted sha1) archive, Done tt).
Proof. unfold Server.index_loop. by rewrite index_run. Qed.

Lemma count_emitted archive : count (map (emitted sha1) archive) = count archive.
Proof.
  induction archive as [|e archive IH]; [done|].
  simpl. by rewrite !count_cons, counted_emitted, IH.
Qed.

End IndexFacts.

(** C4.  On an archive as a tar reader yields it, the index handler
    runs to the end and writes one entry per input entry, in the input
    order.  For an entry of kind regular-file with size > 0 the entry
    written has the name and metadata of the original, size 20 and the
    20-byte hash of the original payload as payload; any other entry is
    written as it was read, payload included. *)
Theorem index_of_archive (sha1 : list Z → list Z) (archive : list Entry) :
  Forall well_formed archive →
  (∀ payload, length (sha1 payload) = 20%nat) →
  let index := (Server.index_loop sha1 archive).1 in
  Server.index_loop sha1 archive = (map (spec_index_entry sha1) archive, Done tt)
  ∧ length index = length archive
  ∧ ∀ k e, archive !! k = Some e →
      ∃ e', index !! k = Some e'
        ∧ Name e'.1 = Name e.1 ∧ Typeflag e'.1 = Typeflag e.1
        ∧ Linkname e'.1 = Linkname e.1 ∧ Mode e'.1 = Mode e.1
        ∧ ModTime e'.1 = ModTime e.1
        ∧ (counted e = true →
             Size e'.1 = 20 ∧ e'.2 = sha1 e.2 ∧ length e'.2 = 20%nat)
        ∧ (counted e = false → e' = e).
Proof.
  intros Hwf Hsize index. subst index.
  assert (Hmap : map (emitted sha1) archive = map (spec_index_entry sha1) archive).
  { apply map_ext_Forall. eapply Forall_impl; [exact Hwf|].
    intros e He. by apply emitted_well_formed. }
  rewrite index_loop_emitted, Hmap. simpl.
  split; [done|]. split; [by rewrite length_map|].
  intros k e Hk. exists (spec_index_entry sha1 e).
  split; [by rewrite list_lookup_fmap, Hk|].
  unfold spec_index_entry. destruct (counted e); simpl.
  - repeat split; done.
  - repeat split; done.
Qed.

Lemma index_of_archive_witness :
  Server.index_loop Sample.digest
    [Sample.dir "a/"; Sample.file "a/x" [65; 65; 65; 65]]
  = (map (spec_index_entry Sample.digest)
       [Sample.dir "a/"; Sample.file "a/x" [65; 65; 65; 65]], Done tt).
Proof.
  apply (index_of_archive Sample.digest
           [Sample.dir "a/"; Sample.file "a/x" [65; 65; 65; 65]]).
  - repeat constructor.
  - intros payload. apply length_replicate.
Defined.

(** ** The file the handlers open *)

(** C10.  Every request path has a final segment: the substring after
    its last ['/'] (the whole path when it has none), which contains no
    ['/'].  The file both handlers open is the one named by the archive
    root followed by that segment, a name directly in the root: when
    the disk has no such file they answer 404; when it has one that
    reads as an archive they answer with the index of that archive and
    with the entries the bitmap selects from it.  Nothing else of the
    path and nothing else of the disk decides their answer: two
    requests whose paths end in the same segment are served the same
    file and get the same answer. *)
Theorem handlers_open_final_segment (path : string) :
  ∃ seg,
    Path.final_segment path seg
    ∧ Path.inputfname path = Path.tarfolder +:+ seg
    ∧ (∀ path', Path.final_segment path' seg →
         Path.inputfname path' = Path.inputfname path)
    ∧ ∀ sha1 gunzip untar (disk : gmap string (list Z)) r,
        Server.URL_Path r = path →
        (disk !! (Path.tarfolder +:+ seg) = None →
         Server.indextarhandler sha1 gunzip untar disk r
         = Done {| Server.StatusCode := 404;
                   Server.Body := Server.Text "404 - File not found!" |}
         ∧ ∀ bitmap, gunzip (Server.Body_ r) = Server.Stream bitmap →
             Server.difftarhandler gunzip untar disk r
             = Done {| Server.StatusCode := 404;
                       Server.Body := Server.Text "404 - File not found!" |})
        ∧ (∀ filein tarbytes archive,
             disk !! (Path.tarfolder +:+ seg) = Some filein →
             gunzip filein = Server.Stream tarbytes →
             untar tarbytes = Some archive →
             Server.indextarhandler sha1 gunzip untar disk r
             = Done {| Server.StatusCode := 200;
                       Server.Body := Server.Tgz (map (emitted sha1) archive) |}
             ∧ ∀ bitmap, gunzip (Server.Body_ r) = Server.Stream bitmap →
                 Server.difftarhandler gunzip untar disk r
                 = Server.respond (Server.diff_loop bitmap archive)
                     Server.tarout)
        ∧ (∀ r', Path.final_segment (Server.URL_Path r') seg →
                 Server.Body_ r' = Server.Body_ r →
                 Server.indextarhandler sha1 gunzip untar disk r'
                 = Server.indextarhandler sha1 gunzip untar disk r
                 ∧ Server.difftarhandler gunzip untar disk r'
                   = Server.difftarhandler gunzip untar disk r)
        ∧ ∀ disk' : gmap string (list Z),
            disk' !! (Path.tarfolder +:+ seg)
            = disk !! (Path.tarfolder +:+ seg) →
            Server.indextarhandler sha1 gunzip untar disk' r
            = Server.indextarhandler sha1 gunzip untar disk r
            ∧ Server.difftarhandler gunzip untar disk' r
              = Server.difftarhandler gunzip untar disk r.
Proof.
  destruct (final_segment_exists path) as [seg Hseg].
  exists seg. split; [done|].
  pose proof (inputfname_of_final_segment _ _ Hseg) as Hname.
  split; [done|]. split.
  { intros path' Hseg'. rewrite Hname.
    by apply inputfname_of_final_segment. }
  intros sha1 gunzip untar disk r Hr.
  unfold Server.indextarhandler, Server.difftarhandler.
  rewrite Hr, Hname. split; [|split; [|split]].
  - intros ->. split; [done|]. by intros bitmap ->.
  - intros filein tarbytes archive -> -> ->.
    rewrite index_loop_emitted. split; [done|]. by intros bitmap ->.
  - intros r' Hseg' ->.
    by rewrite (inputfname_of_final_segment _ _ Hseg').
  - by intros disk' ->.
Qed.

(** ** The status of an unreadable archive *)

(** C9.  What the handlers answer when the archive file exists and
    [gzip.NewReader] rejects it: the status code is 404
    ([http.StatusNotFound]) under a body that reads
    "500 - cannot read tgz file!", for the index request and for the
    diff request alike; it is not 500. *)
Theorem unreadable_archive_status sha1 gunzip untar
    (disk : gmap string (list Z)) r filein :
  disk !! Path.inputfname (Server.URL_Path r) = Some filein →
  gunzip filein = Server.BadHeader →
  Server.indextarhandler sha1 gunzip untar disk r
  = Done {| Server.StatusCode := 404;
            Server.Body := Server.Text "500 - cannot read tgz file!" |}
  ∧ ∀ bitmap, gunzip (Server.Body_ r) = Server.Stream bitmap →
      Server.difftarhandler gunzip untar disk r
      = Done {| Server.StatusCode := 404;
                Server.Body := Server.Text "500 - cannot read tgz file!" |}.
Proof.
  intros Hfile Hbad. unfold Server.indextarhandler, Server.difftarhandler.
  rewrite Hfile, Hbad. split; [done|].
  intros bitmap ->. done.
Qed.

Lemma unreadable_archive_status_witness :
  Server.indextarhandler Sample.digest Sample.gunzip Sample.untar
    {[ "/tmp/image-1234.tgz" := [104; 101; 108; 108; 111] ]}
    {| Server.Method_ := Server.MethodGet;
       Server.URL_Path := "/image-1234.tgz";
       Server.Body_ := [] |}
  = Done {| Server.StatusCode := 404;
            Server.Body := Server.Text "500 - cannot read tgz file!" |}.
Proof.
  apply (unreadable_archive_status Sample.digest Sample.gunzip Sample.untar
           {[ "/tmp/image-1234.tgz" := [104; 101; 108; 108; 111] ]}
           {| Server.Method_ := Server.MethodGet;
              Server.URL_Path := "/image-1234.tgz";
              Server.Body_ := [] |}
           [104; 101; 108; 108; 111]); reflexivity.
Defined.

(** ** The diff handler *)

Section DiffFacts.

Variable requestedfilesbitmap : list Z.
Hypothesis bitmap_bytes : Forall (λ b, 0 ≤ b < 256) requestedfilesbitmap.
Hypothesis bitmap_length : Z.of_nat (length requestedfilesbitmap) < 2 ^ 32.

Local Abbreviation len := (Z.of_nat (length requestedfilesbitmap)).

Lemma spec_bit_beyond c : 8 * len ≤ c → Bitmap.spec_bit requestedfilesbitmap c = false.
Proof.
  intros Hc. unfold Bitmap.spec_bit. rewrite lookup_ge_None_2; [done|].
  assert (len ≤ c / 8) by (apply Z.div_le_lower_bound; lia).
  lia.
Qed.

Lemma spec_diff_beyond c archive :
  8 * len ≤ c → spec_diff requestedfilesbitmap c archive = [].
Proof.
  revert c. induction archive as [|e archive IH]; intros c Hc; [done|].
  simpl. destruct (counted e); [|by apply IH].
  rewrite spec_bit_beyond by done. apply IH. lia.
Qed.

Lemma unpack_at_length c :
  0 ≤ c < 2 ^ 32 → c / 8 = len →
  Bitmap.unpack requestedfilesbitmap c = Panic "runtime error: index out of range".
Proof.
  intros Hc Hlen. unfold Bitmap.unpack.
  rewrite (wrap32_small len) by lia.
  rewrite wrap32_small by lia.
  destruct (Z.gtb_spec (c / 8) len); [lia|].
  rewrite lookup_ge_None_2; [done|]. lia.
Qed.

Lemma unpack_beyond c :
  0 ≤ c < 2 ^ 32 → len ≤ c / 8 →
  ∃ msg, Bitmap.unpack requestedfilesbitmap c = Fatal msg
         ∨ Bitmap.unpack requestedfilesbitmap c = Panic msg.
Proof.
  intros Hc Hlen. unfold Bitmap.unpack.
  destruct (_ >? _); [by eexists; left|].
  assert (0 ≤ c / 8 < 2 ^ 32).
  { split; [apply Z.div_pos; lia|]. apply Z.div_lt_upper_bound; lia. }
  rewrite wrap32_small by done.
  rewrite lookup_ge_None_2; [by eexists; right|]. lia.
Qed.

Lemma diff_run archive : ∀ c tw,
  0 ≤ c → c + count archive ≤ 2 ^ 32 →
  let res := run (Server.diff_entry requestedfilesbitmap) archive
               {| Server.regularfileindex := wrap32 c; Server.tarout := tw |} in
  Server.tarout res.1 = tw ++ spec_diff requestedfilesbitmap c archive
  ∧ (c + count archive ≤ 8 * len → res.2 = Done tt)
  ∧ (c ≤ 8 * len < c + count archive →
       res.2 = Panic "runtime error: index out of range").
Proof.
  induction archive as [|e archive IH]; intros c tw Hc Hmax.
  { simpl. rewrite app_nil_r, count_nil. repeat split; try done; intros; lia. }
  rewrite count_cons in *. pose proof (count_nonneg archive) as Hcount.
  destruct e as [hdr payload].
  assert (Hcnt : counted (hdr, payload)
                 = Ascii.eqb (Typeflag hdr) "0" && (Size hdr >? 0)) by done.
  cbn [run Server.diff_entry spec_diff]. rewrite Hcnt in *. clear Hcnt.
  destruct (Ascii.eqb (Typeflag hdr) "0" && (Size hdr >? 0)) eqn:Hreg;
    cbn [Server.regularfileindex Server.tarout].
  2:{ rewrite Z.add_0_l in *. by apply IH. }
  assert (Hc32 : 0 ≤ c < 2 ^ 32) by lia.
  rewrite (wrap32_small c) by done.
  destruct (Z.lt_ge_cases (c / 8) len) as [Hin|Hout].
  - assert (c < 8 * len).
    { destruct (Z.lt_ge_cases c (8 * len)) as [|Hge]; [done|].
      assert (len ≤ c / 8) by (apply Z.div_le_lower_bound; lia). lia. }
    rewrite unpack_in_range by done.
    destruct (Bitmap.spec_bit requestedfilesbitmap c);
      cbn [Server.regularfileindex Server.tarout].
    + rewrite Write_WriteHeader.
      destruct (IH (c + 1) (tw ++ [(hdr, payload)])) as (Hout & Hdone & Hpanic);
        [lia|lia|].
      rewrite <- app_assoc in Hout.
      split; [exact Hout|]. split; intros ?; [apply Hdone|apply Hpanic]; lia.
    + destruct (IH (c + 1) tw) as (Hout & Hdone & Hpanic); [lia|lia|].
      split; [exact Hout|]. split; intros ?; [apply Hdone|apply Hpanic]; lia.
  - assert (8 * len ≤ c).
    { pose proof (Z.mul_div_le c 8). lia. }
    rewrite spec_bit_beyond, spec_diff_beyond by lia. simpl. rewrite app_nil_r.
    split.
    { destruct (unpack_beyond c) as [msg [-> | ->]]; done. }
    split; [intros ?; lia|]. intros ?.
    rewrite unpack_at_length; [done|done|].
    assert (c = 8 * len) as -> by lia.
    rewrite Z.mul_comm. apply Z.div_mul. lia.
Qed.

End DiffFacts.

Section SpecDiffFacts.

Lemma spec_diff_app bitmap c a1 a2 :
  spec_diff bitmap c (a1 ++ a2)
  = spec_diff bitmap c a1 ++ spec_diff bitmap (c + count a1) a2.
Proof.
  revert c. induction a1 as [|e a1 IH]; intros c; simpl.
  - by rewrite count_nil, Z.add_0_r.
  - rewrite count_cons. destruct (counted e).
    + rewrite IH, <- app_assoc. do 3 f_equal. lia.
    + rewrite IH. do 2 f_equal.
Qed.

Lemma spec_diff_sublist bitmap c archive :
  sublist (spec_diff bitmap c archive) archive.
Proof.
  revert c. induction archive as [|e archive IH]; intros c; simpl; [done|].
  destruct (counted e); [|by apply sublist_cons].
  destruct (Bitmap.spec_bit bitmap c); simpl.
  - by apply sublist_skip.
  - by apply sublist_cons.
Qed.

Lemma spec_diff_counted bitmap c archive :
  Forall (λ e, counted e = true) (spec_diff bitmap c archive).
Proof.
  revert c. induction archive as [|e archive IH]; intros c; simpl; [done|].
  destruct (counted e) eqn:He; [|by apply IH].
  apply Forall_app. split; [|by apply IH].
  destruct (Bitmap.spec_bit bitmap c); [by apply Forall_singleton|done].
Qed.

End SpecDiffFacts.

(** C3.  For every source archive and presence bitmap (a bitmap of
    bytes, both within 32-bit range), what the diff handler has
    written to its response when it stops is exactly the list of the
    entries of kind regular-file with size > 0 whose bit at their
    counter value is 1, each as it was read (header and payload), in
    the order of the archive.  An entry of the archive appears
    according to its own bit only; entries that are not counted never
    appear.  When the bitmap has a bit for every counter value the
    handler runs to the end of the archive. *)
Theorem diff_response (bitmap : list Z) (archive : list Entry) :
  Forall (λ b, 0 ≤ b < 256) bitmap →
  Z.of_nat (length bitmap) < 2 ^ 32 →
  count archive ≤ 2 ^ 32 →
  let res := Server.diff_loop bitmap archive in
  Server.tarout res.1 = spec_diff bitmap 0 archive
  ∧ (count archive ≤ 8 * Z.of_nat (length bitmap) → res.2 = Done tt)
  ∧ Forall (λ e, counted e = true) (Server.tarout res.1)
  ∧ sublist (Server.tarout res.1) archive
  ∧ ∀ before e after, archive = before ++ e :: after →
      spec_diff bitmap 0 archive
      = spec_diff bitmap 0 before
        ++ (if counted e
               && Bitmap.spec_bit bitmap (counter_at archive (length before))
            then [e] else [])
        ++ spec_diff bitmap (counter_at archive (S (length before))) after.
Proof.
  intros Hbytes Hlen Hcount res.
  destruct (diff_run bitmap Hbytes Hlen archive 0 []) as (Hout & Hdone & _);
    [done|lia|].
  change (run _ _ _) with res in Hout, Hdone. simpl in Hout.
  rewrite Hout. split; [done|]. split; [intros ?; apply Hdone; lia|].
  split; [apply spec_diff_counted|]. split; [apply spec_diff_sublist|].
  intros before e after ->. unfold counter_at.
  rewrite (take_app_length before (e :: after)).
  replace (take (S (length before)) (before ++ e :: after)) with (before ++ [e]).
  2:{ rewrite (assoc_L (++) before [e] after : before ++ e :: after = (before ++ [e]) ++ after).
      replace (S (length before)) with (length (before ++ [e]))
        by (rewrite length_app; simpl; lia).
      by rewrite take_app_length. }
  rewrite spec_diff_app. simpl. rewrite count_app, count_cons, count_nil.
  f_equal. rewrite !Z.add_0_l, Z.add_0_r.
  by destruct (counted e); simpl; rewrite ?Z.add_0_r.
Qed.

Lemma diff_response_witness :
  Server.tarout
    (Server.diff_loop [64]
       [Sample.dir "a/"; Sample.file "a/x" [65; 65; 65; 65];
        Sample.file "a/y" [66; 66; 66; 66]]).1
  = spec_diff [64] 0
      [Sample.dir "a/"; Sample.file "a/x" [65; 65; 65; 65];
       Sample.file "a/y" [66; 66; 66; 66]].
Proof.
  apply (diff_response [64]
           [Sample.dir "a/"; Sample.file "a/x" [65; 65; 65; 65];
            Sample.file "a/y" [66; 66; 66; 66]]).
  - repeat constructor; lia.
  - simpl. lia.
  - vm_compute. discriminate.
Defined.

(** C7.  What the diff handler does when the bitmap is shorter than
    the archive needs: the walk reaches the counter value whose byte
    index equals the length of the bitmap, the guard [byteindex > len]
    lets it pass, and the byte at that index is accessed; the request
    ends in the run-time panic of the indexing, not in the bounds
    failure of the guard. *)
Theorem short_bitmap_outcome (bitmap : list Z) (archive : list Entry) :
  Forall (λ b, 0 ≤ b < 256) bitmap →
  count archive ≤ 2 ^ 32 →
  8 * Z.of_nat (length bitmap) < count archive →
  (Server.diff_loop bitmap archive).2 = Panic "runtime error: index out of range"
  ∧ Bitmap.unpack bitmap (8 * Z.of_nat (length bitmap))
    = Panic "runtime error: index out of range".
Proof.
  intros Hbytes Hcount Hshort.
  assert (Hlen : Z.of_nat (length bitmap) < 2 ^ 32) by lia.
  split.
  - destruct (diff_run bitmap Hbytes Hlen archive 0 []) as (_ & _ & Hpanic);
      [done|lia|].
    apply Hpanic. lia.
  - apply unpack_at_length; [done|lia|].
    rewrite Z.mul_comm. apply Z.div_mul. lia.
Qed.

Lemma short_bitmap_outcome_witness :
  (Server.diff_loop [] [Sample.file "a/x" [65]]).2
  = Panic "runtime error: index out of range"
  ∧ Bitmap.unpack [] 0 = Panic "runtime error: index out of range".
Proof.
  apply (short_bitmap_outcome [] [Sample.file "a/x" [65]]).
  - constructor.
  - vm_compute. discriminate.
  - vm_compute. reflexivity.
Defined.

(** ** The local scan *)

Section ScanFacts.

Variable sha1 : list Z → list Z.
Variable faults : Client.Faults.
Variable tgzref : string.

Local Abbreviation scan_entry := (Client.scan_entry sha1 faults tgzref).

Lemma push_bit_eq missing w :
  Bitmap.record_bit missing (Bitmap.take_index w).1 (Bitmap.take_index w).2
  = Bitmap.push_bit missing w.
Proof. done. Qed.

(** A step that returns has pushed one bit for a counted entry and
    none for another entry. *)
Lemma scan_entry_bits e st st' :
  scan_entry e st = (st', Done tt) →
  if counted e
  then ∃ missing, Client.bits st' = Bitmap.push_bit missing (Client.bits st)
  else Client.bits st' = Client.bits st.
Proof.
  destruct e as [hdr payload].
  unfold Client.scan_entry, counted. cbn [fst].
  destruct (Ascii.eqb (Typeflag hdr) "0" && (Size hdr >? 0)).
  2:{ by intros [= <-]. }
  rewrite (surjective_pairing (Bitmap.take_index (Client.bits st))).
  destruct (negb _); [done|].
  destruct (Client.copyfile _ _ _ _) as [fs1|].
  - unfold Client.get_file_size.
    destruct (Client.os_Stat _ _ _) as [fi|]; [|done].
    destruct (Client.getfilehash _ _ _ _) as [filehashstr|].
    + destruct (String.eqb filehashstr _); cbn [negb].
      * destruct (Client.os_Reopen _ _ _); [|done].
        destruct (Client.Copy_fails _ _); [done|].
        intros [= <-]. eexists. simpl. apply push_bit_eq.
      * intros [= <-]. eexists. simpl. apply push_bit_eq.
    + cbn [negb]. intros [= <-]. eexists. simpl. apply push_bit_eq.
  - cbn [Client.get_file_size negb].
    intros [= <-]. eexists. simpl. apply push_bit_eq.
Qed.

Lemma scan_run_bits index : ∀ st st' flags,
  run scan_entry index st = (st', Done tt) →
  Client.bits st = Bitmap.pack_state flags →
  ∃ flags', Client.bits st' = Bitmap.pack_state (flags ++ flags')
            ∧ Z.of_nat (length flags') = count index.
Proof.
  induction index as [|e index IH]; intros st st' flags Hrun Hbits.
  - injection Hrun as <-. exists []. by rewrite app_nil_r.
  - simpl in Hrun. destruct (scan_entry e st) as [s [[]| |]] eqn:Hstep; try done.
    apply scan_entry_bits in Hstep. rewrite count_cons.
    destruct (counted e).
    + destruct Hstep as [missing Hpush].
      rewrite Hbits, <- pack_state_snoc in Hpush.
      destruct (IH _ _ _ Hrun Hpush) as (flags' & Hfinal & Hlen).
      exists (missing :: flags'). rewrite <- app_assoc in Hfinal.
      split; [done|]. rewrite length_cons. lia.
    + rewrite Hbits in Hstep.
      destruct (IH _ _ _ Hrun Hstep) as (flags' & Hfinal & Hlen).
      exists flags'. split; [done|lia].
Qed.

Lemma scan_run_index index fs0 st :
  run scan_entry index (Client.start fs0) = (st, Done tt) →
  Bitmap.regularfileindex (Client.bits st) = wrap32 (count index).
Proof.
  intros Hrun.
  destruct (scan_run_bits index _ _ [] Hrun eq_refl) as (flags & Hbits & Hlen).
  rewrite Hbits, <- Hlen. simpl. apply pack_state_inv.
Qed.

End ScanFacts.

Section WalkFacts.

Lemma diff_run_index bitmap archive : ∀ st st' c,
  run (Server.diff_entry bitmap) archive st = (st', Done tt) →
  Server.regularfileindex st = wrap32 c →
  Server.regularfileindex st' = wrap32 (c + count archive).
Proof.
  induction archive as [|e archive IH]; intros st st' c Hrun Hc.
  - injection Hrun as <-. by rewrite count_nil, Z.add_0_r.
  - simpl in Hrun. rewrite count_cons.
    destruct (Server.diff_entry bitmap e st) as [s [[]| |]] eqn:Hstep; try done.
    destruct e as [hdr payload]. unfold Server.diff_entry in Hstep.
    unfold counted. cbn [fst].
    destruct (Ascii.eqb (Typeflag hdr) "0" && (Size hdr >? 0)).
    + rewrite Z.add_assoc. apply (IH _ _ _ Hrun).
      rewrite <- wrap32_succ, <- Hc.
      destruct (Bitmap.unpack bitmap _) as [[]| |]; by injection Hstep as <-.
    + injection Hstep as <-. rewrite Z.add_0_l. by apply (IH _ _ _ Hrun).
Qed.

End WalkFacts.

(** C1.  The counter of the three phases.  Let the index be what the
    index handler writes for the archive: it has the entries of the
    archive in the same order, and an entry of the index is counted
    (kind regular-file, size > 0) exactly when the entry of the archive
    at its position is.  When the client's scan of the index and the
    server's diff walk of the archive both reach position k, their
    [regularfileindex] variables hold the same value: the number of
    counted entries before position k (as a 32-bit value), whatever the
    local file system and the bitmap are. *)
Theorem counter_determinism sha1 faults tgzref fs0 bitmap
    (archive : list Entry) (k : nat) sc sd :
  let index := (Server.index_loop sha1 archive).1 in
  run (Client.scan_entry sha1 faults tgzref) (take k index) (Client.start fs0)
    = (sc, Done tt) →
  run (Server.diff_entry bitmap) (take k archive)
    {| Server.regularfileindex := 0; Server.tarout := [] |} = (sd, Done tt) →
  Bitmap.regularfileindex (Client.bits sc) = Server.regularfileindex sd
  ∧ Server.regularfileindex sd = wrap32 (counter_at archive k)
  ∧ counter_at index k = counter_at archive k
  ∧ length index = length archive
  ∧ ∀ e e', archive !! k = Some e → index !! k = Some e' →
      counted e' = counted e ∧ Name e'.1 = Name e.1.
Proof.
  intros index Hscan Hwalk. subst index.
  rewrite index_loop_emitted in *. cbn [fst] in *.
  assert (Hcount : counter_at (map (emitted sha1) archive) k = counter_at archive k).
  { unfold counter_at. rewrite <- fmap_take. apply count_emitted. }
  apply scan_run_index in Hscan.
  apply (diff_run_index _ _ _ _ 0) in Hwalk; [|done].
  rewrite Z.add_0_l in Hwalk. fold (counter_at archive k) in Hwalk.
  fold (counter_at (map (emitted sha1) archive) k) in Hscan.
  rewrite Hcount in Hscan.
  split; [congruence|]. split; [done|]. split; [done|].
  split; [by rewrite length_map|].
  intros e e' He. rewrite list_lookup_fmap, He. intros [= <-].
  split; [apply counted_emitted|].
  unfold emitted. by destruct (counted e).
Qed.

Lemma counter_determinism_witness :
  Bitmap.regularfileindex
    (Client.bits
       (run (Client.scan_entry Sample.digest Sample.no_faults "/ref/")
          (take 2 (Server.index_loop Sample.digest Sample.archive).1)
          (Client.start Sample.reference)).1)
  = Server.regularfileindex
      (run (Server.diff_entry [64]) (take 2 Sample.archive)
         {| Server.regularfileindex := 0; Server.tarout := [] |}).1.
Proof.
  apply (counter_determinism Sample.digest Sample.no_faults "/ref/"
           Sample.reference [64] Sample.archive 2
           (run (Client.scan_entry Sample.digest Sample.no_faults "/ref/")
              (take 2 (Server.index_loop Sample.digest Sample.archive).1)
              (Client.start Sample.reference)).1
           (run (Server.diff_entry [64]) (take 2 Sample.archive)
              {| Server.regularfileindex := 0; Server.tarout := [] |}).1);
    vm_compute; reflexivity.
Defined.

Section SatisfiedFacts.

Variable sha1 : list Z → list Z.
Variable faults : Client.Faults.
Variable tgzref : string.

(** A successful [copyfile] has found a regular file at [src] and has
    written [dst]: with the content of [src], or with nothing when
    [dst] is [src] itself. *)
Lemma copyfile_Some (fs fs1 : gmap string Client.Node) src dst :
  Client.copyfile faults fs src dst = Some fs1 →
  ∃ source,
    Client.os_Open faults fs src = Some source
    ∧ fs1 = <[dst := Client.RegularFile
                       (if String.eqb src dst then [] else source)]> fs.
Proof.
  unfold Client.copyfile.
  destruct (Client.os_Stat faults fs src) as [fi|]; [|done].
  destruct (negb (Client.IsRegular fi)); [done|].
  destruct (Client.os_Open faults fs src) as [source|]; [|done].
  destruct (Client.os_Create faults fs dst); [|done].
  intros [= <-]. by exists source.
Qed.

Lemma copyfile_written (fs fs1 : gmap string Client.Node) src dst :
  Client.copyfile faults fs src dst = Some fs1 →
  ∃ content,
    fs1 = <[dst := Client.RegularFile content]> fs
    ∧ (src ≠ dst → Client.os_Open faults fs src = Some content).
Proof.
  intros (source & Hopen & ->)%copyfile_Some.
  eexists. split; [done|]. intros Hne.
  apply String.eqb_neq in Hne. by rewrite Hne.
Qed.


Lemma os_Stat_written (fs : gmap string Client.Node) name content fi :
  Client.os_Stat faults (<[name := Client.RegularFile content]> fs) name = Some fi →
  fi = Client.RegularFile content.
Proof.
  unfold Client.os_Stat. destruct (Client.Stat_fails faults name); [done|].
  rewrite lookup_insert_eq. congruence.
Qed.

Lemma getfilehash_written (fs : gmap string Client.Node) name content h :
  Client.getfilehash sha1 faults (<[name := Client.RegularFile content]> fs) name
    = Some h →
  Client.os_Open faults (<[name := Client.RegularFile content]> fs) name
    = Some content
  ∧ h = EncodeToString (sha1 content).
Proof.
  unfold Client.getfilehash, Client.os_Open.
  destruct (Client.Open_fails faults name); [done|].
  rewrite lookup_insert_eq. by intros [= <-].
Qed.

End SatisfiedFacts.

Section RecordedFacts.

Variable sha1 : list Z → list Z.
Variable faults : Client.Faults.
Variable tgzref : string.

(** The bit pushed for a counted entry is the bit that the server
    reads at the counter value of the entry, in the bitmap of any scan
    that completes. *)
Lemma recorded_bit fs0 (index1 index2 : list Entry) e st1 st2 (b : bool) :
  let scan := run (Client.scan_entry sha1 faults tgzref) in
  let index := index1 ++ e :: index2 in
  count index ≤ 2 ^ 32 →
  counted e = true →
  scan index1 (Client.start fs0) = (st1, Done tt) →
  Client.bits st2 = Bitmap.push_bit b (Client.bits st1) →
  Bitmap.regularfileindex (Client.bits st1) = counter_at index (length index1)
  ∧ ∀ final, scan index2 st2 = (final, Done tt) →
      Bitmap.unpack (Client.bitmap_of final)
        (Bitmap.regularfileindex (Client.bits st1)) = Done b.
Proof.
  intros scan index Hmax Hcounted Hrun Hpush.
  subst index. rewrite count_app, count_cons, Hcounted in Hmax.
  pose proof (count_nonneg index2) as Hcount2.
  destruct (scan_run_bits sha1 faults tgzref index1 _ _ [] Hrun eq_refl)
    as (flags1 & Hbits1 & Hlen1).
  simpl in Hbits1.
  assert (Hidx : Bitmap.regularfileindex (Client.bits st1) = count index1).
  { rewrite Hbits1, <- Hlen1.
    destruct (pack_state_inv flags1) as (-> & _). apply wrap32_small. lia. }
  split.
  { rewrite Hidx. unfold counter_at. by rewrite take_app_length. }
  intros final Hfinal.
  destruct (scan_run_bits sha1 faults tgzref index2 _ _ (flags1 ++ [b]) Hfinal)
    as (flags2 & Hbits2 & Hlen2).
  { by rewrite Hpush, Hbits1, pack_state_snoc. }
  unfold Client.bitmap_of. rewrite Hbits2, Hidx, <- Hlen1.
  apply unpack_pack.
  - rewrite !length_app. simpl. lia.
  - rewrite <- app_assoc. by apply list_lookup_middle.
Qed.

End RecordedFacts.




(** ** Entries that are not satisfied *)

(** The three ways in which the scan marks a counted entry as missing:
    [copyfile] returns an error, [getfilehash] returns an error, or the
    hashes differ.  The step returns, writes nothing to the output
    archive, counts the entry in [missingfiles], and the bit at the
    counter value of the entry is 1 in the bitmap of any completed
    scan. *)
Lemma missing_entry sha1 faults tgzref fs0
    (index1 index2 : list Entry) hdr payload st1 :
  let scan := run (Client.scan_entry sha1 faults tgzref) in
  let index := index1 ++ (hdr, payload) :: index2 in
  let hash := take 20 payload in
  let hashstr := EncodeToString hash in
  let tmpfilename := "/tmp/" +:+ hashstr +:+ ".tmp" in
  let src := tgzref +:+ Name hdr in
  count index ≤ 2 ^ 32 →
  scan index1 (Client.start fs0) = (st1, Done tt) →
  counted (hdr, payload) = true →
  length hash = 20%nat →
  (Client.copyfile faults (Client.fs st1) src tmpfilename = None
   ∨ ∃ fs1 fi,
       Client.copyfile faults (Client.fs st1) src tmpfilename = Some fs1
       ∧ Client.os_Stat faults fs1 tmpfilename = Some fi
       ∧ (Client.getfilehash sha1 faults fs1 tmpfilename = None
          ∨ ∃ filehashstr,
              Client.getfilehash sha1 faults fs1 tmpfilename = Some filehashstr
              ∧ filehashstr ≠ hashstr)) →
  ∃ st2,
    Client.scan_entry sha1 faults tgzref (hdr, payload) st1 = (st2, Done tt)
    ∧ Client.trout st2 = Client.trout st1
    ∧ Client.missingfiles st2 = wrap32 (Client.missingfiles st1 + 1)
    ∧ ∀ final, scan index2 st2 = (final, Done tt) →
        Bitmap.unpack (Client.bitmap_of final)
          (Bitmap.regularfileindex (Client.bits st1)) = Done true.
Proof.
  intros scan index hash hashstr tmpfilename src.
  intros Hmax Hrun Hcounted Hhash Hcases.
  assert (Hstep : ∃ fs2,
    Client.scan_entry sha1 faults tgzref (hdr, payload) st1
    = ({| Client.bits := Bitmap.push_bit true (Client.bits st1);
          Client.missingfiles := wrap32 (Client.missingfiles st1 + 1);
          Client.trout := Client.trout st1;
          Client.fs := fs2 |}, Done tt)).
  { unfold Client.scan_entry. pose proof Hcounted as Hguard.
    unfold counted in Hguard. cbn [fst] in Hguard. rewrite Hguard.
    rewrite (surjective_pairing (Bitmap.take_index (Client.bits st1))).
    change (Z.to_nat sha1_Size) with 20%nat. fold hash. rewrite Hhash.
    cbn [negb Z.of_nat Pos.of_succ_nat Pos.succ Z.eqb Pos.eqb sha1_Size
         Client.set_bits Client.fs Client.trout Client.missingfiles Client.bits].
    fold hashstr. fold tmpfilename. fold src.
    destruct Hcases as [Hcopy | (fs1 & fi & Hcopy & Hstat & Hsum)];
      rewrite Hcopy; unfold Client.get_file_size.
    - by eexists.
    - rewrite Hstat. destruct Hsum as [Hsum | (filehashstr & Hsum & Hne)];
        rewrite Hsum.
      + by eexists.
      + apply String.eqb_neq in Hne. rewrite Hne. by eexists. }
  destruct Hstep as [fs2 Hstep].
  eexists. split; [exact Hstep|]. split; [done|]. split; [done|].
  by apply (recorded_bit sha1 faults tgzref fs0 index1 index2 (hdr, payload)
              st1 _ true).
Qed.

(** C6.  The case of the claim in which reading the size fails:
    [copyfile] has returned no error and [os.Stat] on the copy returns
    an error.  The step does not return: [hdr.Size = fi.Size()] is run
    with [fi == nil] and the scan ends in a run-time panic, instead of
    recording the entry as missing and going on. *)
Theorem stat_failure_panics sha1 faults tgzref hdr payload st fs1 :
  let hash := take 20 payload in
  let tmpfilename := "/tmp/" +:+ EncodeToString hash +:+ ".tmp" in
  counted (hdr, payload) = true →
  length hash = 20%nat →
  Client.copyfile faults (Client.fs st) (tgzref +:+ Name hdr) tmpfilename
    = Some fs1 →
  Client.os_Stat faults fs1 tmpfilename = None →
  (Client.scan_entry sha1 faults tgzref (hdr, payload) st).2
  = Panic "runtime error: invalid memory address or nil pointer dereference".
Proof.
  intros hash tmpfilename Hcounted Hhash Hcopy Hstat.
  unfold Client.scan_entry. unfold counted in Hcounted. cbn [fst] in Hcounted.
  rewrite Hcounted.
  rewrite (surjective_pairing (Bitmap.take_index (Client.bits st))).
  change (Z.to_nat sha1_Size) with 20%nat. fold hash. rewrite Hhash.
  cbn [negb Z.of_nat Pos.of_succ_nat Pos.succ Z.eqb Pos.eqb sha1_Size
       Client.set_bits Client.fs Client.trout Client.missingfiles Client.bits].
  fold tmpfilename. rewrite Hcopy.
  unfold Client.get_file_size. by rewrite Hstat.
Qed.

Lemma stat_failure_panics_witness :
  (Client.scan_entry Sample.digest Sample.stat_tmp_fails "/ref/"
     (Sample.file "a/x" (Sample.digest [65; 65; 65; 65]))
     (Client.start Sample.reference)).2
  = Panic "runtime error: invalid memory address or nil pointer dereference".
Proof.
  apply (stat_failure_panics Sample.digest Sample.stat_tmp_fails "/ref/"
           (Sample.file "a/x" (Sample.digest [65; 65; 65; 65])).1
           (Sample.file "a/x" (Sample.digest [65; 65; 65; 65])).2
           (Client.start Sample.reference)
           (<["/tmp/0404040404040404040404040404040404040404.tmp"
               := Client.RegularFile [65; 65; 65; 65]]> Sample.reference));
    reflexivity.
Defined.

(** ** The scenarios of the specification, run *)

(** Directory [a/], files [a/x] = "AAAA" and [a/y] = "BBBB"; the
    reference directory has [a/x] and lacks [a/y]. *)
Example scenario_bitmap :
  let index := (Server.index_loop Sample.digest Sample.archive).1 in
  let scan := Client.scan_loop Sample.digest Sample.no_faults "/ref/" index
                Sample.reference in
  scan.2 = Done tt
  ∧ Client.bitmap_of scan.1 = [64]
  ∧ Client.missingfiles scan.1 = 1
  ∧ Client.trout scan.1 = [Sample.dir "a/"; Sample.file "a/x" [65; 65; 65; 65]].
Proof. vm_compute. done. Qed.

Example scenario_diff :
  Server.diff_loop [64] Sample.archive
  = ({| Server.regularfileindex := 2;
        Server.tarout := [Sample.file "a/y" [66; 66; 66; 66]] |}, Done tt).
Proof. reflexivity. Qed.

(** The empty archive: an empty index and a bitmap of one zero byte. *)
Example scenario_empty :
  Server.index_loop Sample.digest [] = ([], Done tt)
  ∧ Client.bitmap_of
      (Client.scan_loop Sample.digest Sample.no_faults "/ref/" [] ∅).1 = [0].
Proof. split; reflexivity. Qed.

Example inputfname_examples :
  Path.inputfname "/image-1234.tgz" = "/tmp/image-1234.tgz"
  ∧ Path.inputfname "/a/b/image-1234.tgz" = "/tmp/image-1234.tgz"
  ∧ Path.inputfname "image-1234.tgz" = "/tmp/image-1234.tgz".
Proof. repeat split; reflexivity. Qed.

Example EncodeToString_example : EncodeToString [0; 255; 16; 171] = "00ff10ab".
Proof. reflexivity. Qed.

Example pack_examples :
  Bitmap.pack [true; false; false; false; false; false; false; true] = [129; 0]
  ∧ Bitmap.pack [false; true] = [64]
  ∧ Bitmap.pack [] = [0].
Proof. repeat split; reflexivity. Qed.

Example handler_other_method :
  Server.handler Sample.digest Sample.gunzip Sample.untar ∅
    {| Server.Method_ := Server.MethodOther;
       Server.URL_Path := "/image-1234.tgz"; Server.Body_ := [] |}
  = Done {| Server.StatusCode := 405;
            Server.Body := Server.Text "405 - unsupported method" |}.
Proof. reflexivity. Qed.

(** ** What a completed scan has done *)

Section ScanEffect.

Variable sha1 : list Z → list Z.
Variable faults : Client.Faults.
Variable tgzref : string.

Local Abbreviation scan_entry := (Client.scan_entry sha1 faults tgzref).

(** One step that returns: the bit pushed, the entry written and the
    count of missing files go together. *)
Lemma scan_entry_effect e st st' :
  scan_entry e st = (st', Done tt) →
  if counted e then
    ∃ b : bool,
      Client.bits st' = Bitmap.push_bit b (Client.bits st)
      ∧ if b
        then Client.trout st' = Client.trout st
             ∧ Client.missingfiles st' = wrap32 (Client.missingfiles st + 1)
        else (∃ out, local_copy sha1 e out
                     ∧ Client.trout st' = Client.trout st ++ [out])
             ∧ Client.missingfiles st' = Client.missingfiles st
  else
    Client.bits st' = Client.bits st
    ∧ Client.missingfiles st' = Client.missingfiles st
    ∧ ∃ out, local_copy sha1 e out
             ∧ Client.trout st' = Client.trout st ++ [out].
Proof.
  destruct e as [hdr payload].
  unfold Client.scan_entry, local_copy, counted. cbn [fst snd].
  destruct (Ascii.eqb (Typeflag hdr) "0" && (Size hdr >? 0)).
  2:{ intros [= <-]. cbn. split; [done|]. split; [done|].
      eexists. split; [done|].
      destruct (Size hdr >? 0); [by rewrite Write_WriteHeader|done]. }
  rewrite (surjective_pairing (Bitmap.take_index (Client.bits st))).
  destruct (negb _); [done|].
  destruct (Client.copyfile _ _ _ _) as [fs1|] eqn:Hcopy.
  - apply copyfile_written in Hcopy as (content & -> & _).
    unfold Client.get_file_size.
    destruct (Client.os_Stat _ _ _) as [fi|] eqn:Hstat; [|done].
    apply os_Stat_written in Hstat as ->.
    destruct (Client.getfilehash _ _ _ _) as [filehashstr|] eqn:Hsum.
    + apply getfilehash_written in Hsum as [_ ->].
      destruct (String.eqb_spec (EncodeToString (sha1 content))
                  (EncodeToString (take (Z.to_nat sha1_Size) payload)))
        as [Heq|_]; cbn [negb].
      * unfold Client.os_Reopen.
        destruct (Client.Reopen_fails _ _); [done|].
        rewrite lookup_insert_eq.
        destruct (Client.Copy_fails _ _); [done|].
        intros [= <-]. exists false. cbn.
        split; [apply push_bit_eq|]. split; [|done].
        eexists. split; [by exists content|].
        by rewrite Write_WriteHeader.
      * intros [= <-]. exists true. cbn. split; [apply push_bit_eq|done].
    + cbn [negb]. intros [= <-]. exists true. cbn.
      split; [apply push_bit_eq|done].
  - cbn [Client.get_file_size negb].
    intros [= <-]. exists true. cbn. split; [apply push_bit_eq|done].
Qed.

Lemma wrap32_add_l a b : wrap32 (wrap32 a + b) = wrap32 (a + b).
Proof. unfold wrap32. by rewrite Zplus_mod_idemp_l. Qed.

Lemma scan_run_effect index : ∀ st st' flags0 m,
  run scan_entry index st = (st', Done tt) →
  Client.bits st = Bitmap.pack_state flags0 →
  Client.missingfiles st = wrap32 m →
  ∃ flags T,
    Z.of_nat (length flags) = count index
    ∧ Client.bits st' = Bitmap.pack_state (flags0 ++ flags)
    ∧ Client.trout st' = Client.trout st ++ T
    ∧ Forall2 (local_copy sha1) (kept flags index) T
    ∧ Client.missingfiles st'
      = wrap32 (m + Z.of_nat (length (fetched flags index))).
Proof.
  induction index as [|e index IH]; intros st st' flags0 m Hrun Hbits Hm.
  - injection Hrun as <-. exists [], []. rewrite !app_nil_r, Z.add_0_r.
    repeat split; done.
  - simpl in Hrun.
    destruct (scan_entry e st) as [s [[]| |]] eqn:Hstep; try done.
    apply scan_entry_effect in Hstep. rewrite count_cons. simpl.
    destruct (counted e).
    + destruct Hstep as (b & Hpush & Hb).
      rewrite Hbits, <- pack_state_snoc in Hpush.
      destruct b.
      * destruct Hb as [Hout Hmiss]. rewrite Hm, wrap32_add_l in Hmiss.
        destruct (IH _ _ _ _ Hrun Hpush Hmiss)
          as (flags & T & Hlen & Hfinal & Htrout & Hcopy & Hmissing).
        exists (true :: flags), T. simpl.
        rewrite <- app_assoc in Hfinal. rewrite Hout in Htrout.
        split; [lia|]. split; [done|]. split; [done|]. split; [done|].
        rewrite Hmissing. f_equal. lia.
      * destruct Hb as [(out & Hlocal & Hout) Hmiss]. rewrite Hm in Hmiss.
        destruct (IH _ _ _ _ Hrun Hpush Hmiss)
          as (flags & T & Hlen & Hfinal & Htrout & Hcopy & Hmissing).
        exists (false :: flags), (out :: T). simpl.
        rewrite <- app_assoc in Hfinal.
        rewrite Hout, <- app_assoc in Htrout.
        split; [lia|]. split; [done|]. split; [done|].
        split; [by constructor|done].
    + destruct Hstep as (Hsame & Hmiss & out & Hlocal & Hout).
      rewrite Hbits in Hsame. rewrite Hm in Hmiss.
      destruct (IH _ _ _ _ Hrun Hsame Hmiss)
        as (flags & T & Hlen & Hfinal & Htrout & Hcopy & Hmissing).
      exists flags, (out :: T).
      rewrite Hout, <- app_assoc in Htrout.
      split; [lia|]. split; [done|]. split; [done|].
      split; [by constructor|done].
Qed.

End ScanEffect.

(** ** Flags, kept and fetched entries *)

Section FlagFacts.

Lemma kept_fetched_perm flags archive :
  archive ≡ₚ kept flags archive ++ fetched flags archive.
Proof.
  revert flags. induction archive as [|e archive IH]; intros flags; [done|].
  simpl. destruct (counted e).
  - destruct (default false (head flags)); simpl.
    + rewrite <- Permutation_middle. by constructor.
    + by constructor.
  - simpl. by constructor.
Qed.

Lemma kept_fetched_length flags archive :
  (length (kept flags archive) + length (fetched flags archive))%nat
  = length archive.
Proof.
  rewrite <- length_app. symmetry. apply Permutation_length, kept_fetched_perm.
Qed.

Lemma fetched_counted flags archive :
  Forall (λ e, counted e = true) (fetched flags archive).
Proof.
  revert flags. induction archive as [|e archive IH]; intros flags; simpl; [done|].
  destruct (counted e) eqn:He; [|by apply IH].
  apply Forall_app. split; [|by apply IH].
  destruct (default false (head flags)); [by apply Forall_singleton|done].
Qed.

Lemma fetched_length_le flags archive :
  Z.of_nat (length (fetched flags archive)) ≤ count archive.
Proof.
  revert flags. induction archive as [|e archive IH]; intros flags; simpl; [done|].
  rewrite count_cons. destruct (counted e).
  - rewrite length_app. specialize (IH (tail flags)).
    destruct (default false (head flags)); simpl; lia.
  - specialize (IH flags). lia.
Qed.

Lemma kept_emitted sha1 flags archive :
  kept flags (map (emitted sha1) archive)
  = map (emitted sha1) (kept flags archive).
Proof.
  revert flags. induction archive as [|e archive IH]; intros flags; [done|].
  simpl. rewrite counted_emitted. destruct (counted e).
  - rewrite IH. by destruct (default false (head flags)).
  - simpl. by rewrite IH.
Qed.

(** The server's selection by a packed bitmap is the selection by the
    flags that were packed. *)
Lemma spec_diff_pack flags archive : ∀ c : nat,
  spec_diff (Bitmap.pack flags) (Z.of_nat c) archive
  = fetched (drop c flags) archive.
Proof.
  induction archive as [|e archive IH]; intros c; [done|].
  simpl. destruct (counted e); [|apply IH].
  rewrite pack_spec_bit, Nat2Z.id by lia.
  replace (Z.of_nat c + 1) with (Z.of_nat (S c)) by lia. rewrite IH.
  destruct (flags !! c) as [b|] eqn:Hc.
  - by rewrite (drop_S _ _ _ Hc).
  - apply lookup_ge_None in Hc.
    rewrite !drop_ge by lia. done.
Qed.

Lemma merge_run diff : ∀ trout,
  Forall (λ e, counted e = true) diff →
  run Client.merge_entry diff trout = (trout ++ diff, Done tt).
Proof.
  induction diff as [|[hdr payload] diff IH]; intros trout Hall; simpl.
  - by rewrite app_nil_r.
  - apply Forall_cons in Hall as [He Hall].
    unfold counted in He. cbn [fst] in He.
    apply andb_true_iff in He as [_ ->].
    rewrite Write_WriteHeader, IH by done. by rewrite <- app_assoc.
Qed.

(** The diff loop on a bitmap that the client has packed from one flag
    per counted entry. *)
Lemma diff_loop_pack flags archive :
  Z.of_nat (length flags) = count archive →
  count archive ≤ 2 ^ 32 →
  Server.diff_loop (Bitmap.pack flags) archive
  = ({| Server.regularfileindex := wrap32 (count archive);
        Server.tarout := fetched flags archive |}, Done tt).
Proof.
  intros Hlen Hmax.
  assert (Hdiv : count archive / 8 ≤ 2 ^ 32 / 8) by (apply Z.div_le_mono; lia).
  change (2 ^ 32 / 8) with 536870912 in Hdiv.
  pose proof (pack_length flags) as Hpack. rewrite Hlen in Hpack.
  destruct (diff_run (Bitmap.pack flags) (pack_bytes flags)
              ltac:(lia) archive 0 []) as (Hout & Hdone & _); [done|lia|].
  unfold Server.diff_loop.
  destruct (run _ archive _) as [walk outcome] eqn:Hrun.
  cbn [fst snd] in *.
  rewrite Hdone in *
    by (rewrite Hpack; pose proof (Z.mod_pos_bound (count archive) 8);
        pose proof (Z.div_mod (count archive) 8); lia).
  pose proof (diff_run_index _ _ _ _ 0 Hrun eq_refl) as Hidx.
  rewrite Z.add_0_l in Hidx.
  change 0 with (Z.of_nat 0) in Hout. rewrite spec_diff_pack in Hout.
  destruct walk as [idx out]. simpl in *. by subst.
Qed.

End FlagFacts.

(** X1.  What a completed scan of an index leaves: one flag per
    counted entry in traversal order, the bitmap being the packing of
    the flags; the output archive holds, in order, the entries that
    are not counted and a local copy for each counted entry whose flag
    is unset; [missingfiles] is the number of set flags (as a 32-bit
    value); and the entries the diff handler selects from the index by
    this bitmap are exactly the counted entries whose flag is set. *)
Theorem scan_result sha1 faults tgzref (index : list Entry) fs0 st :
  Client.scan_loop sha1 faults tgzref index fs0 = (st, Done tt) →
  ∃ flags,
    Client.bitmap_of st = Bitmap.pack flags
    ∧ Z.of_nat (length flags) = count index
    ∧ Forall2 (local_copy sha1) (kept flags index) (Client.trout st)
    ∧ Client.missingfiles st
      = wrap32 (Z.of_nat (length (fetched flags index)))
    ∧ spec_diff (Client.bitmap_of st) 0 index = fetched flags index
    ∧ (length (Client.trout st) + length (fetched flags index))%nat
      = length index.
Proof.
  intros Hrun.
  destruct (scan_run_effect sha1 faults tgzref index _ _ [] 0 Hrun eq_refl eq_refl)
    as (flags & T & Hlen & Hbits & Htrout & Hcopy & Hmissing).
  simpl in Hbits, Htrout. subst T.
  exists flags. unfold Client.bitmap_of. rewrite Hbits.
  fold (Bitmap.pack flags).
  split; [done|]. split; [done|]. split; [done|]. split; [done|].
  split.
  - change 0 with (Z.of_nat 0). by rewrite spec_diff_pack.
  - rewrite <- (Forall2_length _ _ _ Hcopy). apply kept_fetched_length.
Qed.

Lemma scan_result_witness :
  ∃ flags,
    Client.bitmap_of
      (Client.scan_loop Sample.digest Sample.no_faults "/ref/"
         (Server.index_loop Sample.digest Sample.archive).1
         Sample.reference).1 = Bitmap.pack flags
    ∧ Z.of_nat (length flags)
      = count (Server.index_loop Sample.digest Sample.archive).1.
Proof.
  destruct (scan_result Sample.digest Sample.no_faults "/ref/"
              (Server.index_loop Sample.digest Sample.archive).1
              Sample.reference
              (Client.scan_loop Sample.digest Sample.no_faults "/ref/"
                 (Server.index_loop Sample.digest Sample.archive).1
                 Sample.reference).1)
    as (flags & Hbitmap & Hlen & _); [reflexivity|].
  by exists flags.
Defined.

(** ** Hexadecimal hashes *)

Section HexFacts.

Lemma nibble_cases a :
  0 ≤ a < 16 →
  a = 0 ∨ a = 1 ∨ a = 2 ∨ a = 3 ∨ a = 4 ∨ a = 5 ∨ a = 6 ∨ a = 7
  ∨ a = 8 ∨ a = 9 ∨ a = 10 ∨ a = 11 ∨ a = 12 ∨ a = 13 ∨ a = 14 ∨ a = 15.
Proof. lia. Qed.

Lemma hexdigit_inj a b :
  0 ≤ a < 16 → 0 ≤ b < 16 → hexdigit a = hexdigit b → a = b.
Proof.
  intros Ha Hb.
  apply nibble_cases in Ha. apply nibble_cases in Hb.
  repeat (destruct Ha as [->|Ha]); try subst a;
    repeat (destruct Hb as [->|Hb]); try subst b;
    vm_compute; intros H; first [reflexivity | discriminate H].
Qed.

Lemma byte_nibbles v :
  0 ≤ v < 256 →
  0 ≤ Z.shiftr v 4 < 16 ∧ 0 ≤ Z.land v 15 < 16
  ∧ v = 16 * Z.shiftr v 4 + Z.land v 15.
Proof.
  intros Hv. rewrite Z.shiftr_div_pow2 by lia.
  change 15 with (Z.ones 4). rewrite Z.land_ones by lia.
  change (2 ^ 4) with 16. Z.div_mod_to_equations. lia.
Qed.

Lemma EncodeToString_inj a : ∀ b,
  Forall (λ v, 0 ≤ v < 256) a → Forall (λ v, 0 ≤ v < 256) b →
  EncodeToString a = EncodeToString b → a = b.
Proof.
  induction a as [|v a IH]; intros [|w b] Ha Hb Heq; try done.
  apply Forall_cons in Ha as [Hv Ha]. apply Forall_cons in Hb as [Hw Hb].
  simpl in Heq. injection Heq as Hhi Hlo Hrest.
  destruct (byte_nibbles v Hv) as (? & ? & Hvv).
  destruct (byte_nibbles w Hw) as (? & ? & Hww).
  apply hexdigit_inj in Hhi; [|done..]. apply hexdigit_inj in Hlo; [|done..].
  f_equal; [lia|by apply IH].
Qed.

Lemma EncodeToString_length a :
  String.length (EncodeToString a) = (2 * length a)%nat.
Proof. induction a as [|v a IH]; [done|]. simpl. rewrite IH. lia. Qed.

End HexFacts.

(** X2.  The comparison of hashes in hexadecimal is exact.  The
    encoding of n bytes has 2n characters and two byte sequences with
    the same encoding are equal; so, for a digest of bytes, the string
    [getfilehash] returns for a readable file equals the encoding of a
    hash exactly when the SHA-1 of the content of the file is that
    hash. *)
Theorem hash_comparison_exact sha1 faults (fs : gmap string Client.Node)
    name content hash :
  (∀ p, Forall (λ v, 0 ≤ v < 256) (sha1 p)) →
  Forall (λ v, 0 ≤ v < 256) hash →
  Client.os_Open faults fs name = Some content →
  ∃ filehashstr,
    Client.getfilehash sha1 faults fs name = Some filehashstr
    ∧ String.length filehashstr = (2 * length (sha1 content))%nat
    ∧ (String.eqb filehashstr (EncodeToString hash) = true
       ↔ sha1 content = hash).
Proof.
  intros Hsha Hhash Hopen. unfold Client.getfilehash. rewrite Hopen.
  eexists. split; [done|]. split; [apply EncodeToString_length|].
  rewrite String.eqb_eq. split; [|by intros ->].
  by apply EncodeToString_inj.
Qed.

Lemma hash_comparison_exact_witness :
  ∃ filehashstr,
    Client.getfilehash Sample.digest Sample.no_faults Sample.reference
      "/ref/a/x" = Some filehashstr
    ∧ String.length filehashstr = 40%nat.
Proof.
  destruct (hash_comparison_exact Sample.digest Sample.no_faults
              Sample.reference "/ref/a/x" [65; 65; 65; 65]
              (Sample.digest [66; 66; 66; 66]))
    as (h & Hsum & Hlen & _).
  - intros p. unfold Sample.digest. apply Forall_replicate.
    apply Z.mod_pos_bound. lia.
  - unfold Sample.digest. apply Forall_replicate.
    apply Z.mod_pos_bound. lia.
  - reflexivity.
  - exists h. split; [exact Hsum|]. rewrite Hlen. reflexivity.
Defined.

(** ** The two phases together *)

Section SyncFacts.

Variable sha1 : list Z → list Z.
Hypothesis sha1_length : ∀ p, length (sha1 p) = 20%nat.
Hypothesis sha1_bytes : ∀ p, Forall (λ v, 0 ≤ v < 256) (sha1 p).

Lemma local_copy_restored e out :
  well_formed e → local_copy sha1 (emitted sha1 e) out → restored sha1 e out.
Proof.
  intros Hwf. unfold local_copy, restored. rewrite counted_emitted.
  destruct (counted e) eqn:He.
  - unfold emitted. rewrite He. cbn [fst snd].
    intros (content & -> & Hhex). exists content. split; [done|].
    rewrite take_ge in Hhex by (rewrite sha1_length; done).
    by apply EncodeToString_inj in Hhex.
  - intros ->. unfold emitted. rewrite He.
    destruct e as [hdr payload]. unfold well_formed in Hwf. cbn [fst snd] in *.
    destruct (Z.gtb_spec (Size hdr) 0); [done|].
    f_equal. destruct Hwf as [Hl| ->]; [|done].
    destruct payload; [done|]. simpl in Hl. lia.
Qed.

Lemma Forall2_restored l T :
  Forall well_formed l →
  Forall2 (local_copy sha1) (map (emitted sha1) l) T →
  Forall2 (restored sha1) l T.
Proof.
  revert T. induction l as [|e l IH]; intros T Hwf Hcopy; simpl in Hcopy.
  - apply Forall2_nil_inv_l in Hcopy as ->. constructor.
  - apply Forall2_cons_inv_l in Hcopy as (out & T' & He & Hcopy & ->).
    apply Forall_cons in Hwf as [Hwe Hwf].
    constructor; [by apply local_copy_restored|by apply IH].
Qed.

End SyncFacts.

(** X3.  A bitmap that the client has built from the index of an
    archive is always long enough for that archive: it has more than
    count/8 bytes, the diff handler runs to the end on it (neither the
    guard nor the indexing stops it) and answers with the entries
    selected by the bitmap. *)
Theorem genuine_bitmap_is_served sha1 faults tgzref fs0
    (archive : list Entry) st :
  count archive ≤ 2 ^ 32 →
  Client.scan_loop sha1 faults tgzref (Server.index_loop sha1 archive).1 fs0
    = (st, Done tt) →
  serve_diff archive (Client.bitmap_of st)
    = Done (spec_diff (Client.bitmap_of st) 0 archive)
  ∧ count archive < 8 * Z.of_nat (length (Client.bitmap_of st)).
Proof.
  intros Hmax Hrun. rewrite index_loop_emitted in Hrun. cbn [fst] in Hrun.
  destruct (scan_run_effect sha1 faults tgzref _ _ _ [] 0 Hrun eq_refl eq_refl)
    as (flags & T & Hlen & Hbits & _).
  rewrite count_emitted in Hlen. simpl in Hbits.
  unfold Client.bitmap_of. rewrite Hbits. fold (Bitmap.pack flags).
  split.
  - unfold serve_diff. rewrite diff_loop_pack by done. cbn [Server.tarout].
    change 0 with (Z.of_nat 0). by rewrite spec_diff_pack.
  - rewrite pack_length, Hlen.
    pose proof (Z.mod_pos_bound (count archive) 8).
    pose proof (Z.div_mod (count archive) 8). lia.
Qed.

Lemma genuine_bitmap_is_served_witness :
  serve_diff Sample.archive
    (Client.bitmap_of
       (Client.scan_loop Sample.digest Sample.no_faults "/ref/"
          (Server.index_loop Sample.digest Sample.archive).1
          Sample.reference).1)
  = Done [Sample.file "a/y" [66; 66; 66; 66]].
Proof.
  destruct (genuine_bitmap_is_served Sample.digest Sample.no_faults "/ref/"
              Sample.reference Sample.archive
              (Client.scan_loop Sample.digest Sample.no_faults "/ref/"
                 (Server.index_loop Sample.digest Sample.archive).1
                 Sample.reference).1) as [Hserved _].
  - vm_compute. discriminate.
  - reflexivity.
  - rewrite Hserved. reflexivity.
Defined.

(** X4.  A whole synchronisation.  The archive is as a tar reader
    yields it and has fewer than 2^32 counted entries; the client
    scans the index the server makes of it and the scan completes.
    Then [main] ends with an output archive made of two parts: first,
    in the order of the source, every entry that is not counted as it
    is in the source, and for every counted entry found locally the
    header of the source with the size and content of the local file,
    whose SHA-1 is that of the source payload; then, in the order of
    the source, the counted entries not found locally, as the server
    sent them.  The output has one entry per entry of the source; the
    fetched entries come last, not at their place in the source. *)
Theorem sync_complete sha1 faults tgzref fs0 (archive : list Entry) st :
  Forall well_formed archive →
  (∀ p, length (sha1 p) = 20%nat) →
  (∀ p, Forall (λ v, 0 ≤ v < 256) (sha1 p)) →
  count archive < 2 ^ 32 →
  let index := (Server.index_loop sha1 archive).1 in
  Client.scan_loop sha1 faults tgzref index fs0 = (st, Done tt) →
  ∃ flags local,
    Client.sync sha1 faults tgzref index (serve_diff archive) fs0
      = Done (local ++ fetched flags archive)
    ∧ Forall2 (restored sha1) (kept flags archive) local
    ∧ archive ≡ₚ kept flags archive ++ fetched flags archive
    ∧ length (local ++ fetched flags archive) = length archive.
Proof.
  intros Hwf Hlen20 Hbytes Hmax index Hrun. subst index.
  unfold Client.sync. rewrite Hrun. unfold Client.scan_loop in Hrun.
  rewrite index_loop_emitted in *. cbn [fst] in *.
  destruct (scan_run_effect sha1 faults tgzref _ _ _ [] 0 Hrun eq_refl eq_refl)
    as (flags & T & Hlen & Hbits & Htrout & Hcopy & Hmissing).
  rewrite count_emitted in Hlen. simpl in Hbits, Htrout, Hmissing. subst T.
  rewrite kept_emitted in Hcopy.
  assert (Hfetched : fetched flags (map (emitted sha1) archive)
                     = map (emitted sha1) (fetched flags archive)).
  { clear. revert flags.
    induction archive as [|e archive IH]; intros flags; [done|].
    simpl. rewrite counted_emitted. destruct (counted e); [|apply IH].
    rewrite IH, map_app. by destruct (default false (head flags)). }
  rewrite Hfetched, length_map in Hmissing.
  pose proof (fetched_length_le flags archive) as Hle.
  rewrite wrap32_small in Hmissing by lia.
  pose proof (kept_fetched_perm flags archive) as Hperm.
  assert (Hwfk : Forall well_formed (kept flags archive)).
  { rewrite Hperm in Hwf. by apply Forall_app in Hwf as [? _]. }
  exists flags, (Client.trout st).
  split; [|split; [by apply Forall2_restored|split; [done|]]].
  - unfold Client.load_missing.
    destruct (Z.gtb_spec (Client.missingfiles st) 0) as [Hpos|Hzero].
    + unfold Client.bitmap_of. rewrite Hbits. fold (Bitmap.pack flags).
      unfold serve_diff. rewrite diff_loop_pack by (done || lia).
      cbn [Server.tarout]. by rewrite merge_run by apply fetched_counted.
    + destruct (fetched flags archive); [by rewrite app_nil_r|].
      simpl in Hmissing. lia.
  - rewrite length_app, <- (Forall2_length _ _ _ (Forall2_restored _ Hlen20
      Hbytes _ _ Hwfk Hcopy)). apply kept_fetched_length.
Qed.

Lemma sync_complete_witness :
  ∃ flags local,
    Client.sync Sample.digest Sample.no_faults "/ref/"
      (Server.index_loop Sample.digest Sample.archive).1
      (serve_diff Sample.archive) Sample.reference
    = Done (local ++ fetched flags Sample.archive)
    ∧ length (local ++ fetched flags Sample.archive) = 3%nat.
Proof.
  destruct (sync_complete Sample.digest Sample.no_faults "/ref/"
              Sample.reference Sample.archive
              (Client.scan_loop Sample.digest Sample.no_faults "/ref/"
                 (Server.index_loop Sample.digest Sample.archive).1
                 Sample.reference).1)
    as (flags & local & Hsync & _ & _ & Hlen).
  - repeat constructor.
  - intros p. apply length_replicate.
  - intros p. unfold Sample.digest. apply Forall_replicate.
    apply Z.mod_pos_bound. lia.
  - vm_compute. reflexivity.
  - reflexivity.
  - exists flags, local. split; [exact Hsync|exact Hlen].
Defined.

(** ** The scratch files *)

Lemma prefix_tmp s : String.prefix "/tmp/" ("/tmp/" +:+ s) = true.
Proof. by destruct s. Qed.

(** ** A reference directory that has every file *)

Section FullReference.

Variable sha1 : list Z → list Z.
Variable faults : Client.Faults.
Variable tgzref : string.
Variable fs0 : gmap string Client.Node.

Hypothesis sha1_length : ∀ p, length (sha1 p) = 20%nat.
Hypothesis no_Stat_fault : ∀ name, Client.Stat_fails faults name = false.
Hypothesis no_Open_fault : ∀ name, Client.Open_fails faults name = false.
Hypothesis no_Create_fault : ∀ name, Client.Create_fails faults name = false.
Hypothesis no_Reopen_fault : ∀ name, Client.Reopen_fails faults name = false.
Hypothesis no_Copy_fault : ∀ name, Client.Copy_fails faults name = false.
Hypothesis no_Remove_fault : ∀ name, Client.Remove_fails faults name = false.
Hypothesis clean_tmp : ∀ p, String.prefix "/tmp/" p = true → fs0 !! p = None.

Local Abbreviation scan_entry := (Client.scan_entry sha1 faults tgzref).

(** The entry is in the reference directory as it is in the archive. *)
Local Abbreviation present e :=
  (if counted e
   then fs0 !! (tgzref +:+ Name e.1) = Some (Client.RegularFile e.2)
        ∧ Z.of_nat (length e.2) = Size e.1
   else well_formed e).

Lemma scan_entry_present e st :
  Client.fs st = fs0 →
  present e →
  scan_entry (emitted sha1 e) st
  = ({| Client.bits := if counted e
                       then Bitmap.push_bit false (Client.bits st)
                       else Client.bits st;
        Client.missingfiles := Client.missingfiles st;
        Client.trout := Client.trout st ++ [e];
        Client.fs := fs0 |}, Done tt).
Proof.
  intros Hfs Hpresent. destruct (counted e) eqn:Hc.
  - destruct Hpresent as [Hfile Hsize].
    destruct e as [hdr payload]. unfold emitted. rewrite Hc.
    unfold counted in Hc. cbn [fst snd] in *.
    apply andb_true_iff in Hc as [Hflag _].
    set (tmpfilename :=
           "/tmp/" +:+ EncodeToString (sha1 payload) +:+ ".tmp").
    assert (Htmp : fs0 !! tmpfilename = None)
      by apply clean_tmp, prefix_tmp.
    assert (Hsrc : String.eqb (tgzref +:+ Name hdr) tmpfilename = false).
    { apply String.eqb_neq. intros Heq. rewrite Heq in Hfile. congruence. }
    assert (Hcopy : Client.copyfile faults fs0 (tgzref +:+ Name hdr) tmpfilename
                    = Some (<[tmpfilename := Client.RegularFile payload]> fs0)).
    { unfold Client.copyfile, Client.os_Stat, Client.os_Open, Client.os_Create.
      by rewrite no_Stat_fault, no_Open_fault, no_Create_fault, Hfile, Htmp,
        Hsrc. }
    unfold Client.scan_entry. cbn [Typeflag Size Name set_Size].
    rewrite Hflag.
    rewrite (surjective_pairing (Bitmap.take_index (Client.bits st))).
    change (Z.to_nat sha1_Size) with 20%nat.
    rewrite take_ge, sha1_length by (by rewrite sha1_length).
    cbn [andb negb Z.of_nat Pos.of_succ_nat Pos.succ Z.eqb Pos.eqb sha1_Size
         Z.gtb Z.compare Client.set_bits Client.fs Client.trout
         Client.missingfiles Client.bits].
    fold tmpfilename. rewrite Hfs, Hcopy.
    unfold Client.get_file_size, Client.getfilehash, Client.os_Stat,
      Client.os_Open, Client.os_Reopen.
    rewrite no_Stat_fault, no_Open_fault, lookup_insert_eq, String.eqb_refl.
    cbn [negb Client.FileInfo_Size].
    rewrite no_Reopen_fault, no_Copy_fault, Write_WriteHeader.
    unfold Client.os_Remove.
    rewrite no_Remove_fault, delete_insert_id by done.
    rewrite Hsize. by destruct hdr.
  - destruct e as [hdr payload]. unfold emitted. rewrite Hc.
    unfold counted in Hc. cbn [fst snd] in *.
    unfold Client.scan_entry. rewrite Hc, Hfs.
    unfold well_formed in Hpresent. cbn [fst snd] in Hpresent.
    destruct (Z.gtb_spec (Size hdr) 0); [by rewrite Write_WriteHeader|].
    do 4 f_equal. destruct Hpresent as [Hl| ->]; [|done].
    destruct payload; [done|]. simpl in Hl. lia.
Qed.

Lemma scan_run_present archive : ∀ st flags0,
  Client.fs st = fs0 →
  Client.bits st = Bitmap.pack_state flags0 →
  Forall (λ e, present e) archive →
  ∃ st',
    run scan_entry (map (emitted sha1) archive) st = (st', Done tt)
    ∧ Client.trout st' = Client.trout st ++ archive
    ∧ Client.missingfiles st' = Client.missingfiles st
    ∧ Client.fs st' = fs0
    ∧ Client.bits st'
      = Bitmap.pack_state
          (flags0 ++ replicate (Z.to_nat (count archive)) false).
Proof.
  induction archive as [|e archive IH]; intros st flags0 Hfs Hbits Hall.
  - exists st. simpl. by rewrite !app_nil_r.
  - apply Forall_cons in Hall as [He Hall].
    simpl. rewrite scan_entry_present by done.
    rewrite count_cons. pose proof (count_nonneg archive).
    destruct (counted e).
    + match goal with
      | |- context [run _ _ ?s] =>
          destruct (IH s (flags0 ++ [false]))
            as (st' & -> & Hout & Hm & Hf & Hb); [done| |done|]
      end.
      { simpl. by rewrite Hbits, pack_state_snoc. }
      exists st'. simpl in *. split; [done|].
      rewrite Hout, <- !app_assoc. split; [done|]. split; [done|].
      split; [done|]. rewrite Hb, <- app_assoc.
      replace (Z.to_nat (1 + count archive))
        with (S (Z.to_nat (count archive))) by lia.
      done.
    + match goal with
      | |- context [run _ _ ?s] =>
          destruct (IH s flags0)
            as (st' & -> & Hout & Hm & Hf & Hb); [done|done|done|]
      end.
      exists st'. simpl in *. split; [done|].
      rewrite Hout, <- !app_assoc. by rewrite Z.add_0_l.
Qed.

End FullReference.

(** X7.  A reference directory that holds every file of the archive.
    The local file system has no fault (of [os.Stat], [os.Open],
    [os.Create], the second [os.Open], [io.Copy] or [os.Remove]) and
    nothing under ["/tmp/"],
    and for every counted entry of the archive the file of that name
    under the reference directory has the payload of the entry as
    content.  Then the scan of the server's index completes with every
    bit of the bitmap 0 and [missingfiles] = 0, no diff request is
    made (the result does not depend on what the server would answer),
    the output archive is the source archive itself, entry for entry,
    and the local file system ends as it started. *)
Theorem full_reference_reproduces_archive sha1 faults tgzref
    (fs0 : gmap string Client.Node) (archive : list Entry) post :
  (∀ p, length (sha1 p) = 20%nat) →
  (∀ name, Client.Stat_fails faults name = false) →
  (∀ name, Client.Open_fails faults name = false) →
  (∀ name, Client.Create_fails faults name = false) →
  (∀ name, Client.Reopen_fails faults name = false) →
  (∀ name, Client.Copy_fails faults name = false) →
  (∀ name, Client.Remove_fails faults name = false) →
  (∀ p, String.prefix "/tmp/" p = true → fs0 !! p = None) →
  Forall (λ e,
    if counted e
    then fs0 !! (tgzref +:+ Name e.1) = Some (Client.RegularFile e.2)
         ∧ Z.of_nat (length e.2) = Size e.1
    else well_formed e) archive →
  let index := (Server.index_loop sha1 archive).1 in
  Client.sync sha1 faults tgzref index post fs0 = Done archive
  ∧ ∃ st,
      Client.scan_loop sha1 faults tgzref index fs0 = (st, Done tt)
      ∧ Client.missingfiles st = 0
      ∧ Client.fs st = fs0
      ∧ ∀ i, 0 ≤ i → Bitmap.spec_bit (Client.bitmap_of st) i = false.
Proof.
  intros Hlen HS HO HC HR HY HD Hclean Hall index. subst index.
  rewrite index_loop_emitted. cbn [fst].
  destruct (scan_run_present sha1 faults tgzref fs0 Hlen HS HO HC HR HY HD
              Hclean
              archive (Client.start fs0) [] eq_refl eq_refl Hall)
    as (st & Hrun & Hout & Hm & Hfs & Hbits).
  simpl in Hout, Hm, Hbits.
  assert (Hsync : Client.scan_loop sha1 faults tgzref
                    (map (emitted sha1) archive) fs0 = (st, Done tt)) by done.
  split.
  - unfold Client.sync, Client.load_missing. by rewrite Hsync, Hm, Hout.
  - exists st. split; [done|]. split; [done|]. split; [done|].
    intros i Hi. unfold Client.bitmap_of. rewrite Hbits.
    fold (Bitmap.pack (replicate (Z.to_nat (count archive)) false)).
    rewrite pack_spec_bit by done.
    destruct (replicate _ false !! Z.to_nat i) as [b|] eqn:Hb; [|done].
    by apply lookup_replicate in Hb as [-> _].
Qed.

Lemma full_reference_reproduces_archive_witness :
  Client.sync Sample.digest Sample.no_faults "/ref/"
    (Server.index_loop Sample.digest
       [Sample.dir "a/"; Sample.file "a/x" [65; 65; 65; 65]]).1
    (λ _, Panic "no server") Sample.reference
  = Done [Sample.dir "a/"; Sample.file "a/x" [65; 65; 65; 65]].
Proof.
  apply (full_reference_reproduces_archive Sample.digest Sample.no_faults
           "/ref/" Sample.reference
           [Sample.dir "a/"; Sample.file "a/x" [65; 65; 65; 65]]
           (λ _, Panic "no server")).
  - intros p. apply length_replicate.
  - reflexivity.
  - reflexivity.
  - reflexivity.
  - reflexivity.
  - reflexivity.
  - reflexivity.
  - intros p Hp. unfold Sample.reference.
    apply lookup_singleton_None. intros <-. discriminate Hp.
  - repeat constructor.
Defined.

(** ** How the diff walk and the handlers end *)

(** X8.  For a bitmap of fewer than 2^32 bytes and an archive of at
    most 2^32 counted entries, the diff walk ends in one of two ways,
    decided by the length of the bitmap alone: it runs to the end of
    the archive exactly when the bitmap has a bit for every counter
    value (count <= 8 * length), and otherwise it stops in the
    run-time panic of the indexing.  Within these bounds the branch of
    the guard [byteindex > len], with its [log.Fatalln], is never
    taken. *)
Theorem diff_loop_outcome (bitmap : list Z) (archive : list Entry) :
  Forall (λ b, 0 ≤ b < 256) bitmap →
  Z.of_nat (length bitmap) < 2 ^ 32 →
  count archive ≤ 2 ^ 32 →
  ((Server.diff_loop bitmap archive).2 = Done tt
   ↔ count archive ≤ 8 * Z.of_nat (length bitmap))
  ∧ ((Server.diff_loop bitmap archive).2
       = Panic "runtime error: index out of range"
     ↔ 8 * Z.of_nat (length bitmap) < count archive)
  ∧ ∀ msg, (Server.diff_loop bitmap archive).2 ≠ Fatal msg.
Proof.
  intros Hbytes Hlen Hcount.
  destruct (diff_run bitmap Hbytes Hlen archive 0 []) as (_ & Hdone & Hpanic);
    [done|lia|].
  change (run _ _ _) with (Server.diff_loop bitmap archive) in Hdone, Hpanic.
  rewrite Z.add_0_l in *.
  destruct (Z.le_gt_cases (count archive) (8 * Z.of_nat (length bitmap)))
    as [Hle|Hgt].
  - rewrite Hdone by done. split; [done|]. split; [|done].
    split; [done|lia].
  - rewrite Hpanic by lia. split; [|split; [done|done]].
    split; [done|lia].
Qed.

Lemma diff_loop_outcome_witness :
  (Server.diff_loop [64] Sample.archive).2 = Done tt
  ↔ count Sample.archive ≤ 8 * Z.of_nat (length [64]).
Proof.
  apply (diff_loop_outcome [64] Sample.archive).
  - repeat constructor; lia.
  - simpl. lia.
  - vm_compute. discriminate.
Defined.

(** X9.  The answers of the HTTP handler.  A request that is answered
    gets one of four status codes: 200 with an archive as body, only
    when the file named by the final segment of the path exists,
    passes [gzip.NewReader] and reads as a tar stream; 404 for GET and
    POST when the file is absent or [gzip.NewReader] rejects it; 405
    for any other method; 500 only for a POST whose bitmap cannot be
    read after its gzip header.  No GET is answered with 500. *)
Theorem handler_status sha1 gunzip untar (disk : gmap string (list Z)) r resp :
  Server.handler sha1 gunzip untar disk r = Done resp →
  let file := disk !! Path.inputfname (Server.URL_Path r) in
  (Server.StatusCode resp = 200
   ∧ (∃ entries, Server.Body resp = Server.Tgz entries)
   ∧ Server.Method_ r ≠ Server.MethodOther
   ∧ ∃ filein tarbytes archive,
       file = Some filein ∧ gunzip filein = Server.Stream tarbytes
       ∧ untar tarbytes = Some archive)
  ∨ (Server.StatusCode resp = 404
     ∧ Server.Method_ r ≠ Server.MethodOther
     ∧ (file = None
        ∨ ∃ filein, file = Some filein ∧ gunzip filein = Server.BadHeader))
  ∨ (Server.StatusCode resp = 405 ∧ Server.Method_ r = Server.MethodOther)
  ∨ (Server.StatusCode resp = 500
     ∧ Server.Method_ r = Server.MethodPost
     ∧ gunzip (Server.Body_ r) = Server.Corrupt).
Proof.
  intros Hresp file. subst file.
  unfold Server.handler, Server.indextarhandler, Server.difftarhandler in Hresp.
  destruct (Server.Method_ r) eqn:Hm.
  - destruct (disk !! _) as [filein|] eqn:Hfile.
    + destruct (gunzip filein) as [| |tarbytes] eqn:Hgz; try done.
      * injection Hresp as <-. right. left. simpl. eauto 10.
      * destruct (untar tarbytes) as [archive|] eqn:Htar; [|done].
        unfold Server.respond in Hresp.
        destruct (Server.index_loop sha1 archive) as [out [[]| |]]; try done.
        injection Hresp as <-. left. simpl. eauto 10.
    + injection Hresp as <-. right. left. simpl. eauto.
  - destruct (gunzip (Server.Body_ r)) as [| |bitmap] eqn:Hbody; [done| |].
    { injection Hresp as <-. right. right. right. done. }
    destruct (disk !! _) as [filein|] eqn:Hfile.
    + destruct (gunzip filein) as [| |tarbytes] eqn:Hgz; try done.
      * injection Hresp as <-. right. left. simpl. eauto 10.
      * destruct (untar tarbytes) as [archive|] eqn:Htar; [|done].
        unfold Server.respond in Hresp.
        destruct (Server.diff_loop bitmap archive) as [out [[]| |]]; try done.
        injection Hresp as <-. left. simpl. eauto 10.
    + injection Hresp as <-. right. left. simpl. eauto.
  - injection Hresp as <-. right. right. left. done.
Qed.

Lemma handler_status_witness :
  Server.StatusCode
    {| Server.StatusCode := 404;
       Server.Body := Server.Text "404 - File not found!" |} = 404
  ∧ (∅ : gmap string (list Z)) !! Path.inputfname "/image-1234.tgz" = None.
Proof.
  assert (Hresp :
    Server.handler Sample.digest Sample.gunzip Sample.untar
      (∅ : gmap string (list Z))
      {| Server.Method_ := Server.MethodGet;
         Server.URL_Path := "/image-1234.tgz";
         Server.Body_ := [] |}
    = Done {| Server.StatusCode := 404;
              Server.Body := Server.Text "404 - File not found!" |})
    by (vm_compute; reflexivity).
  destruct (handler_status _ _ _ _ _ _ Hresp)
    as [(H200 & _)|[(H404 & _ & Hfile)|[(H405 & _)|(H500 & _)]]];
    try discriminate.
  split; [exact H404|]. reflexivity.
Defined.

(** ** [copyfile] and [getfilehash] *)



(** ** The arguments of the client *)

Section ArgumentFacts.
Import Path.

Lemma append_assoc a b c : (a +:+ b) +:+ c = a +:+ (b +:+ c).
Proof.
  induction a as [|x a IH]; [done|].
  change (String x ((a +:+ b) +:+ c) = String x (a +:+ (b +:+ c))).
  by rewrite IH.
Qed.

Lemma length_append a b :
  String.length (a +:+ b) = (String.length a + String.length b)%nat.
Proof.
  induction a as [|x a IH]; [done|].
  change (S (String.length (a +:+ b))
          = S (String.length a + String.length b)).
  by rewrite IH.
Qed.

Lemma drop_append a b : drop (String.length a) (a +:+ b) = b.
Proof. induction a as [|x a IH]; [by destruct b|done]. Qed.

Lemma drop_split n : ∀ s,
  (n ≤ String.length s)%nat → ∃ a, s = a +:+ drop n s.
Proof.
  induction n as [|n IH]; intros s Hn.
  - exists "". by destruct s.
  - destruct s as [|x s]; simpl in *; [lia|].
    destruct (IH s) as [a Ha]; [lia|].
    exists (String x a).
    change (String x s = String x (a +:+ drop n s)). by rewrite <- Ha.
Qed.

Lemma HasSuffix_append a suffix : Client.HasSuffix (a +:+ suffix) suffix = true.
Proof.
  unfold Client.HasSuffix. rewrite length_append.
  replace (String.length a + String.length suffix - String.length suffix)%nat
    with (String.length a) by lia.
  rewrite drop_append, String.eqb_refl, andb_true_r.
  apply Nat.leb_le. lia.
Qed.

Lemma HasSuffix_split s suffix :
  Client.HasSuffix s suffix = true → ∃ a, s = a +:+ suffix.
Proof.
  unfold Client.HasSuffix. intros [Hlen Heq]%andb_true_iff.
  apply Nat.leb_le in Hlen. apply String.eqb_eq in Heq.
  destruct (drop_split (String.length s - String.length suffix) s) as [a Ha];
    [lia|].
  exists a. by rewrite Heq in Ha.
Qed.

Lemma occurs_append c a b : occurs c (a +:+ b) ↔ occurs c a ∨ occurs c b.
Proof.
  induction a as [|x a IH]; simpl; [tauto|]. rewrite IH. tauto.
Qed.

Lemma strip_slashes_keep a t :
  Client.strip_slashes t = t → t ≠ "" →
  Client.strip_slashes (a +:+ t) = a +:+ t.
Proof.
  intros Ht Hne. induction a as [|x a IH]; [exact Ht|].
  change (Client.strip_slashes (String x (a +:+ t)) = String x (a +:+ t)).
  simpl. rewrite IH.
  destruct (a +:+ t) eqn:Heq; [|done].
  destruct a as [|y a].
  - change (t = "") in Heq. done.
  - change (String y (a +:+ t) = "") in Heq. discriminate Heq.
Qed.

(** [path.Base] of a path that ends in [".tgz"] is its final segment,
    which ends in [".tgz"]. *)
Lemma Base_tgz a :
  ∃ seg, Client.Base (a +:+ ".tgz") = seg +:+ ".tgz"
         ∧ final_segment (a +:+ ".tgz") (seg +:+ ".tgz").
Proof.
  assert (Hno : ¬ occurs "/" ".tgz").
  { simpl. intros [H|[H|[H|[H|[]]]]]; discriminate H. }
  unfold Client.Base.
  replace (String.eqb (a +:+ ".tgz") "") with false by (by destruct a).
  rewrite strip_slashes_keep by done.
  destruct (final_segment_exists a) as [seg [Hseg [->|[dirs ->]]]].
  - exists seg.
    assert (Hnone : ¬ occurs "/" (seg +:+ ".tgz")).
    { rewrite occurs_append. tauto. }
    rewrite LastIndex_absent by done. cbn [Z.geb Z.compare].
    replace (String.eqb (seg +:+ ".tgz") "") with false by (by destruct seg).
    split; [done|]. split; [done|by left].
  - exists seg.
    assert (Hnone : ¬ occurs "/" (seg +:+ ".tgz")).
    { rewrite occurs_append. tauto. }
    rewrite !append_assoc.
    change ("/" +:+ seg +:+ ".tgz") with (String "/" (seg +:+ ".tgz")).
    rewrite LastIndex_after by done.
    destruct (Z.geb_spec (Z.of_nat (String.length dirs)) 0); [|lia].
    unfold slice_from.
    replace (Z.to_nat (Z.of_nat (String.length dirs) + 1))
      with (S (String.length dirs)) by lia.
    rewrite drop_after.
    replace (String.eqb (seg +:+ ".tgz") "") with false by (by destruct seg).
    split; [done|]. split; [done|]. right. by exists dirs.
Qed.

End ArgumentFacts.

(** X11.  The arguments [main] goes on with.  When [-src] is not the
    default URL and ends in [".tgz"], the flags are accepted and the
    source is [-src] unchanged.  The reference directory is [-ref]
    itself when that ends in ["/"], and [-ref] followed by ["/"]
    otherwise; it ends in ["/"].  With [seg] the final segment of the
    source URL, which ends in [".tgz"], the destination is [-dst]
    followed by [seg] when [-dst] ends in ["/"]; [-dst] itself when
    it does not and ends in [".tgz"]; [-dst] followed by ["/"] and
    [seg] otherwise; it ends in [".tgz"].  Any other [-src] ends
    [main] before it does anything. *)
Theorem arguments_result (ptgzsrc ptgzdst ptgzref : string) :
  String.eqb ptgzsrc Client.defaulturl = false →
  Client.HasSuffix ptgzsrc ".tgz" = true →
  ∃ seg,
    Path.final_segment ptgzsrc seg
    ∧ Client.HasSuffix seg ".tgz" = true
    ∧ let tgzdst :=
        if Client.HasSuffix ptgzdst "/" then ptgzdst +:+ seg
        else if Client.HasSuffix ptgzdst ".tgz" then ptgzdst
        else (ptgzdst +:+ "/") +:+ seg in
      let tgzref :=
        if Client.HasSuffix ptgzref "/" then ptgzref else ptgzref +:+ "/" in
      Client.arguments ptgzsrc ptgzdst ptgzref = Done (ptgzsrc, tgzdst, tgzref)
      ∧ Client.HasSuffix tgzdst ".tgz" = true
      ∧ Client.HasSuffix tgzref "/" = true
      ∧ ∀ src,
          String.eqb src Client.defaulturl = true
          ∨ Client.HasSuffix src ".tgz" = false →
          ∃ msg, Client.arguments src ptgzdst ptgzref = Fatal msg.
Proof.
  intros Hdefault Hsrc.
  pose proof Hsrc as Hsplit. apply HasSuffix_split in Hsplit as [a ->].
  destruct (Base_tgz a) as (seg & Hbase & Hseg).
  exists (seg +:+ ".tgz"). split; [done|]. split; [apply HasSuffix_append|].
  cbv zeta. unfold Client.arguments. rewrite Hdefault, Hsrc, Hbase.
  cbn [negb]. split; [|split; [|split]].
  - by destruct (Client.HasSuffix ptgzref "/").
  - destruct (Client.HasSuffix ptgzdst "/");
      [by rewrite <- append_assoc, HasSuffix_append|].
    destruct (Client.HasSuffix ptgzdst ".tgz") eqn:Hdst; [done|].
    by rewrite <- append_assoc, HasSuffix_append.
  - destruct (Client.HasSuffix ptgzref "/") eqn:Href; [done|].
    apply HasSuffix_append.
  - intros src [Hd|Hs].
    + rewrite Hd. by eexists.
    + destruct (String.eqb src Client.defaulturl); [by eexists|].
      rewrite Hs. by eexists.
Qed.

Lemma arguments_result_witness :
  Client.arguments "http://localhost:8090/d/image-7.tgz" "out" "/ref"
  = Done ("http://localhost:8090/d/image-7.tgz", "out/image-7.tgz", "/ref/").
Proof.
  destruct (arguments_result "http://localhost:8090/d/image-7.tgz" "out" "/ref")
    as (seg & _ & _ & Hargs & _); reflexivity.
Defined.

(** ** The handlers on a readable archive *)

(** X12.  The answers for an archive file that exists, passes
    [gzip.NewReader] and reads as a tar stream.  A GET is answered
    with status 200 and the index: one entry per entry of the archive,
    in order, as the index loop writes it.  A POST whose body
    decompresses to a bitmap is answered with status 200 and the
    entries selected by the bitmap when the bitmap has a bit for every
    counter value; when it is shorter the handler does not answer with
    a status of its own but ends in the run-time panic of the
    indexing. *)
Theorem handler_success sha1 gunzip untar (disk : gmap string (list Z)) r
    filein tarbytes (archive : list Entry) :
  disk !! Path.inputfname (Server.URL_Path r) = Some filein →
  gunzip filein = Server.Stream tarbytes →
  untar tarbytes = Some archive →
  (Server.Method_ r = Server.MethodGet →
   Server.handler sha1 gunzip untar disk r
   = Done {| Server.StatusCode := 200;
             Server.Body := Server.Tgz (map (emitted sha1) archive) |})
  ∧ ∀ bitmap,
      Server.Method_ r = Server.MethodPost →
      gunzip (Server.Body_ r) = Server.Stream bitmap →
      Forall (λ b, 0 ≤ b < 256) bitmap →
      Z.of_nat (length bitmap) < 2 ^ 32 →
      count archive ≤ 2 ^ 32 →
      Server.handler sha1 gunzip untar disk r
      = if count archive <=? 8 * Z.of_nat (length bitmap)
        then Done {| Server.StatusCode := 200;
                     Server.Body := Server.Tgz (spec_diff bitmap 0 archive) |}
        else Panic "runtime error: index out of range".
Proof.
  intros Hfile Hgz Htar. unfold Server.handler. split.
  - intros ->. unfold Server.indextarhandler.
    rewrite Hfile, Hgz, Htar, index_loop_emitted. done.
  - intros bitmap -> Hbody Hbytes Hlen Hcount.
    unfold Server.difftarhandler. rewrite Hbody, Hfile, Hgz, Htar.
    destruct (diff_run bitmap Hbytes Hlen archive 0 [])
      as (Hout & Hdone & Hpanic); [done|lia|].
    change (run _ _ _) with (Server.diff_loop bitmap archive)
      in Hout, Hdone, Hpanic.
    rewrite Z.add_0_l in *. simpl in Hout. unfold Server.respond.
    destruct (Server.diff_loop bitmap archive) as [walk outcome].
    cbn [fst snd] in *.
    destruct (Z.leb_spec (count archive) (8 * Z.of_nat (length bitmap))).
    + rewrite Hdone by done. by rewrite Hout.
    + by rewrite Hpanic by lia.
Qed.

Lemma handler_success_witness :
  Server.handler Sample.digest Sample.gunzip Sample.untar
    {[ "/tmp/image-1234.tgz" := [31; 139; 65] ]}
    {| Server.Method_ := Server.MethodGet;
       Server.URL_Path := "/image-1234.tgz";
       Server.Body_ := [] |}
  = Done {| Server.StatusCode := 200;
            Server.Body :=
              Server.Tgz
                (map (emitted Sample.digest)
                   [({| Name := "f"; Typeflag := "0"; Size := 1;
                        Linkname := ""; Mode := 420; ModTime := 0 |},
                     [65])]) |}.
Proof.
  apply (handler_success Sample.digest Sample.gunzip Sample.untar
           {[ "/tmp/image-1234.tgz" := [31; 139; 65] ]}
           {| Server.Method_ := Server.MethodGet;
              Server.URL_Path := "/image-1234.tgz";
              Server.Body_ := [] |}
           [31; 139; 65] [65]); reflexivity.
Defined.
